(** * ATS Resume Generator: the [ResumeGenerator] React component

    A shallow embedding of [frontend/src/ResumeGenerator.jsx].

    - JavaScript strings are sequences of UTF-16 code units ([list N]).
    - The [async] function [generate] is a term of a small resumption monad
      [Async]: synchronous effects, [await] points and exceptions; the
      combinators [try_catch] and [finally] give [try/catch/finally] its
      JavaScript meaning.
    - The component is a transition system: its state are the four
      [useState] cells and the suspended runs of [generate]; its events are
      the DOM events wired in the JSX and the settling of awaited promises. *)

From Stdlib Require Import List NArith Bool String Ascii Lia Arith.
From ExtLib Require Import Structures.Monad.
Import ListNotations.
Import MonadNotation.
Local Open Scope monad_scope.
Local Open Scope list_scope.


(* ===================================================================== *)
(** ** JavaScript strings *)
(* ===================================================================== *)

Module JS.

(** A string value: its UTF-16 code units. *)
Definition jsstring := list N.

(** An ASCII literal of the source as a string value. *)
Definition lit (s : string) : jsstring :=
  map N_of_ascii (list_ascii_of_string s).

Definition jsstring_eq_dec : forall a b : jsstring, {a = b} + {a <> b} :=
  list_eq_dec N.eq_dec.

(** ToBoolean on a string: only the empty string is falsy. *)
Definition truthy (s : jsstring) : bool :=
  match s with
  | [] => false
  | _ :: _ => true
  end.

(** [a || b] on strings. *)
Definition or_else (a b : jsstring) : jsstring :=
  if truthy a then a else b.

(** WhiteSpace and LineTerminator code points (ECMA-262, 12.2 and 12.3):
    TAB, VT, FF, ZWNBSP, the category Zs, and LF, CR, LS, PS. *)
Definition is_white_space (c : N) : bool :=
  ((c =? 9) || (c =? 10) || (c =? 11) || (c =? 12) || (c =? 13)
   || (c =? 32) || (c =? 160) || (c =? 5760)
   || ((8192 <=? c) && (c <=? 8202))
   || (c =? 8232) || (c =? 8233) || (c =? 8239) || (c =? 8287)
   || (c =? 12288) || (c =? 65279))%N.

Fixpoint trimStart (s : jsstring) : jsstring :=
  match s with
  | [] => []
  | c :: rest => if is_white_space c then trimStart rest else s
  end.

Definition trimEnd (s : jsstring) : jsstring :=
  rev (trimStart (rev s)).

(** [String.prototype.trim]. *)
Definition trim (s : jsstring) : jsstring :=
  trimEnd (trimStart s).

(** The string consists of white space only (the empty string too). *)
Definition all_white_space (s : jsstring) : bool :=
  forallb is_white_space s.

(** ToString of a value that is a string or [undefined], as a template
    literal substitution performs it. *)
Definition template_subst (v : option jsstring) : jsstring :=
  match v with
  | Some s => s
  | None => lit "undefined"
  end.

End JS.

Import JS.

(* ===================================================================== *)
(** ** JSON.stringify on the objects the component builds *)
(* ===================================================================== *)

Module JSON.

(** Property values that occur: strings and booleans. *)
Inductive value : Type :=
| VString (s : jsstring)
| VBoolean (b : bool).

(** An object literal: its own properties in insertion order. *)
Definition object := list (jsstring * value).

Definition hex_digit (d : N) : N :=
  (if d <? 10 then 48 + d else 87 + d)%N.

(** UnicodeEscape: a backslash, [u] and four lowercase hex digits. *)
Definition unicode_escape (c : N) : jsstring :=
  [92; 117;
   hex_digit ((c / 4096) mod 16); hex_digit ((c / 256) mod 16);
   hex_digit ((c / 16) mod 16); hex_digit (c mod 16)]%N.

Definition is_lead_surrogate (c : N) : bool :=
  ((55296 <=? c) && (c <=? 56319))%N.

Definition is_trail_surrogate (c : N) : bool :=
  ((56320 <=? c) && (c <=? 57343))%N.

(** One code unit that is not part of a surrogate pair. *)
Definition escape_unit (c : N) : jsstring :=
  (if c =? 8 then lit "\b"
   else if c =? 9 then lit "\t"
   else if c =? 10 then lit "\n"
   else if c =? 12 then lit "\f"
   else if c =? 13 then lit "\r"
   else if c =? 34 then [92; 34]
   else if c =? 92 then [92; 92]
   else if (c <? 32) || is_lead_surrogate c || is_trail_surrogate c
        then unicode_escape c
   else [c])%N.

(** The characters of QuoteJSONString between the two quotes: a lead
    surrogate followed by a trail surrogate is one code point and is
    copied; every other code unit is escaped on its own. *)
Fixpoint quote_chars (s : jsstring) : jsstring :=
  match s with
  | [] => []
  | c :: rest =>
      match rest with
      | d :: rest' =>
          if is_lead_surrogate c && is_trail_surrogate d
          then c :: d :: quote_chars rest'
          else escape_unit c ++ quote_chars rest
      | [] => escape_unit c
      end
  end.

Definition quote (s : jsstring) : jsstring :=
  [34%N] ++ quote_chars s ++ [34%N].

Definition stringify_value (v : value) : jsstring :=
  match v with
  | VString s => quote s
  | VBoolean true => lit "true"
  | VBoolean false => lit "false"
  end.

Definition stringify_property (p : jsstring * value) : jsstring :=
  quote (fst p) ++ lit ":" ++ stringify_value (snd p).

Fixpoint join_comma (parts : list jsstring) : jsstring :=
  match parts with
  | [] => []
  | [p] => p
  | p :: more => p ++ lit "," ++ join_comma more
  end.

(** [JSON.stringify(obj)] without replacer or indentation. *)
Definition stringify (o : object) : jsstring :=
  lit "{" ++ join_comma (map stringify_property o) ++ lit "}".

(** *** Reading the compact form back *)

(** The value of a hex digit. *)
Definition hex_value (c : N) : option N :=
  (if (48 <=? c) && (c <=? 57) then Some (c - 48)
   else if (97 <=? c) && (c <=? 102) then Some (c - 87)
   else if (65 <=? c) && (c <=? 70) then Some (c - 55)
   else None)%N.

(** The character a two-character escape stands for. *)
Definition unescape (e : N) : option N :=
  (if e =? 98 then Some 8
   else if e =? 116 then Some 9
   else if e =? 110 then Some 10
   else if e =? 102 then Some 12
   else if e =? 114 then Some 13
   else if e =? 34 then Some 34
   else if e =? 92 then Some 92
   else if e =? 47 then Some 47
   else None)%N.

Definition cons_char (c : N) (r : option (jsstring * jsstring))
  : option (jsstring * jsstring) :=
  match r with
  | Some (v, tl) => Some (c :: v, tl)
  | None => None
  end.

(** The characters of a string up to its closing quote, and what follows
    the quote. *)
Fixpoint read_chars (s : jsstring) : option (jsstring * jsstring) :=
  match s with
  | [] => None
  | c :: rest =>
      if (c =? 34)%N then Some ([], rest)
      else if (c =? 92)%N then
        match rest with
        | [] => None
        | e :: rest1 =>
            if (e =? 117)%N then
              match rest1 with
              | h3 :: h2 :: h1 :: h0 :: rest2 =>
                  match hex_value h3, hex_value h2, hex_value h1, hex_value h0 with
                  | Some d3, Some d2, Some d1, Some d0 =>
                      cons_char (4096 * d3 + 256 * d2 + 16 * d1 + d0)%N
                        (read_chars rest2)
                  | _, _, _, _ => None
                  end
              | _ => None
              end
            else
              match unescape e with
              | Some x => cons_char x (read_chars rest1)
              | None => None
              end
        end
      else cons_char c (read_chars rest)
  end.

Definition read_string (s : jsstring) : option (jsstring * jsstring) :=
  match s with
  | c :: rest => if (c =? 34)%N then read_chars rest else None
  | [] => None
  end.

Fixpoint strip_prefix (p s : jsstring) : option jsstring :=
  match p, s with
  | [], _ => Some s
  | a :: p', b :: s' => if (a =? b)%N then strip_prefix p' s' else None
  | _ :: _, [] => None
  end.

Definition read_value (s : jsstring) : option (value * jsstring) :=
  match read_string s with
  | Some (v, tl) => Some (VString v, tl)
  | None =>
      match strip_prefix (lit "true") s with
      | Some tl => Some (VBoolean true, tl)
      | None =>
          match strip_prefix (lit "false") s with
          | Some tl => Some (VBoolean false, tl)
          | None => None
          end
      end
  end.

(** The properties after the opening brace, up to the closing one. *)
Fixpoint read_properties (fuel : nat) (s : jsstring) : option (object * jsstring) :=
  match fuel with
  | O => None
  | S fuel' =>
      match read_string s with
      | Some (k, c :: s1) =>
          if (c =? 58)%N then
            match read_value s1 with
            | Some (v, d :: s2) =>
                if (d =? 44)%N then
                  match read_properties fuel' s2 with
                  | Some (ps, tl) => Some ((k, v) :: ps, tl)
                  | None => None
                  end
                else if (d =? 125)%N then Some ([(k, v)], s2)
                else None
            | _ => None
            end
          else None
      | _ => None
      end
  end.

(** [JSON.parse] on the compact serialization of a flat object. *)
Definition parse (s : jsstring) : option object :=
  match s with
  | c :: rest =>
      if (c =? 123)%N then
        match rest with
        | [d] => if (d =? 125)%N then Some [] else None
        | _ =>
            match read_properties (List.length rest) rest with
            | Some (o, []) => Some o
            | _ => None
            end
        end
      else None
  | [] => None
  end.
End JSON.

(* ===================================================================== *)
(** ** Browser values *)
(* ===================================================================== *)

(** An [Error] object as it reaches the [catch] clause; only [message] is
    read. [fetch] and [Response.blob] reject with [TypeError] or
    [DOMException] objects, whose [message] is a string. *)
Record JsError : Type := Error { message : jsstring }.

(** A promise that has settled. *)
Inductive Settled (T : Type) : Type :=
| Fulfilled (v : T)
| Rejected (e : JsError).

Arguments Fulfilled {T} v.
Arguments Rejected {T} e.

Record Blob : Type := { blob_type : jsstring; blob_bytes : list N }.

(** The argument of [fetch]: the resource and the init dictionary. *)
Record Request : Type := {
  url : jsstring;
  method : jsstring;
  headers : list (jsstring * jsstring);
  body : jsstring
}.

(** The [Response] that [fetch] resolves with. [body_read] is what reading
    the body to its end yields: the blob, or the failure of the stream. *)
Record Response : Type := {
  status : N;
  statusText : jsstring;
  body_read : Settled Blob
}.

(** [Response.ok]: the status is in the range 200 to 299. *)
Definition ok (res : Response) : bool :=
  ((200 <=? status res) && (status res <=? 299))%N.

(** An element made by [document.createElement], with the two attributes
    the component assigns. *)
Record Element : Type := {
  tagName : jsstring;
  href : jsstring;
  download : option jsstring
}.

Definition set_href (u : jsstring) (el : Element) : Element :=
  {| tagName := tagName el; href := u; download := download el |}.

Definition set_download (name : jsstring) (el : Element) : Element :=
  {| tagName := tagName el; href := href el; download := Some name |}.

(** The promises the component awaits. *)
Inductive promise : Type -> Type :=
| fetch (req : Request) : promise Response
| blob (res : Response) : promise Blob.

(** What the component does to the world and to its own state cells, in
    the order it does it. *)
Inductive effect : Type :=
| SetJdUrl (v : jsstring)
| SetGreyHat (b : bool)
| SetLoading (b : bool)
| SetError (msg : jsstring)
| FetchCall (req : Request)
| BlobCall (res : Response)
| CreateObjectURL (b : Blob) (u : jsstring)
| CreateElement (tag : jsstring)
| AppendChild (el : Element)
| Click (el : Element)
| Remove (el : Element)
| RevokeObjectURL (u : jsstring).

(* ===================================================================== *)
(** ** The resumption monad of an async function *)
(* ===================================================================== *)

(** An async function as far as it has not run yet: it returns, throws,
    does something and goes on, asks the browser for an object URL, or
    waits for a promise to settle. *)
Inductive Async (A : Type) : Type :=
| Return (a : A)
| Throw (e : JsError)
| Perform (ef : effect) (k : Async A)
| NewObjectURL (b : Blob) (k : jsstring -> Async A)
| Await (T : Type) (p : promise T) (k : Settled T -> Async A).

Arguments Return {A} a.
Arguments Throw {A} e.
Arguments Perform {A} ef k.
Arguments NewObjectURL {A} b k.
Arguments Await {A T} p k.

Fixpoint bind_async {A B : Type} (m : Async A) (f : A -> Async B) : Async B :=
  match m with
  | Return a => f a
  | Throw e => Throw e
  | Perform ef k => Perform ef (bind_async k f)
  | NewObjectURL b k => NewObjectURL b (fun u => bind_async (k u) f)
  | Await p k => Await p (fun o => bind_async (k o) f)
  end.

#[global] Instance Monad_Async : Monad Async :=
  {| ret := @Return; bind := @bind_async |}.

(** [try { body } catch (err) { handler err }] *)
Fixpoint try_catch {A : Type} (body : Async A) (handler : JsError -> Async A)
  : Async A :=
  match body with
  | Return a => Return a
  | Throw e => handler e
  | Perform ef k => Perform ef (try_catch k handler)
  | NewObjectURL b k => NewObjectURL b (fun u => try_catch (k u) handler)
  | Await p k => Await p (fun o => try_catch (k o) handler)
  end.

(** [try { body } finally { fin }]: [fin] runs on both exits and the
    completion of [body] is kept unless [fin] itself throws. *)
Fixpoint finally {A : Type} (body : Async A) (fin : Async unit) : Async A :=
  match body with
  | Return a => bind_async fin (fun _ => Return a)
  | Throw e => bind_async fin (fun _ => Throw e)
  | Perform ef k => Perform ef (finally k fin)
  | NewObjectURL b k => NewObjectURL b (fun u => finally (k u) fin)
  | Await p k => Await p (fun o => finally (k o) fin)
  end.

Definition try_catch_finally {A : Type} (body : Async A)
  (handler : JsError -> Async A) (fin : Async unit) : Async A :=
  finally (try_catch body handler) fin.

(** [await p]: the value of a fulfilled promise; a rejection is thrown at
    the await. *)
Definition await {T : Type} (p : promise T) : Async T :=
  Await p (fun o =>
    match o with
    | Fulfilled v => Return v
    | Rejected e => Throw e
    end).

(** The synchronous calls of the source. On the values they are given here
    (a [Blob] from [res.blob()], an anchor made by [createElement], the
    mounted [document.body]) the DOM calls complete normally; what can
    fail is the request and the reading of the body, at the two awaits. *)
Definition perform (ef : effect) : Async unit := Perform ef (Return tt).

Definition setLoading (b : bool) : Async unit := perform (SetLoading b).
Definition setError (msg : jsstring) : Async unit := perform (SetError msg).
Definition createObjectURL (b : Blob) : Async jsstring :=
  NewObjectURL b (fun u => Return u).
Definition revokeObjectURL (u : jsstring) : Async unit :=
  perform (RevokeObjectURL u).
Definition createElement (tag : jsstring) : Async Element :=
  Perform (CreateElement tag)
    (Return {| tagName := tag; href := []; download := None |}).
Definition appendChild (el : Element) : Async unit := perform (AppendChild el).
Definition click (el : Element) : Async unit := perform (Click el).
Definition remove (el : Element) : Async unit := perform (Remove el).

(* ===================================================================== *)
(** ** The component *)
(* ===================================================================== *)

(** The four [useState] cells, with the names of the source. *)
Record State : Type := {
  jdUrl : jsstring;
  greyHat : bool;
  loading : bool;
  error : jsstring
}.

(** The arguments of the four [useState] calls. *)
Definition initial_state : State :=
  {| jdUrl := []; greyHat := true; loading := false; error := [] |}.

Section Component.

(** [import.meta.env.VITE_API_BASE_URL], fixed when the bundle is built:
    a string, or [undefined] when the variable is not set. *)
Variable VITE_API_BASE_URL : option jsstring.

(** The object literal given to [JSON.stringify]. *)
Definition payload (jd_url : jsstring) (grey_hat : bool) : JSON.object :=
  [ (lit "jd_url", JSON.VString jd_url);
    (lit "grey_hat", JSON.VBoolean grey_hat) ].

Definition generate_request (jd_url : jsstring) (grey_hat : bool) : Request :=
  let API_BASE := VITE_API_BASE_URL in
  {| url := template_subst API_BASE ++ lit "/generate-resume-from-url";
     method := lit "POST";
     headers := [ (lit "Content-Type", lit "application/json") ];
     body := JSON.stringify (payload jd_url grey_hat) |}.

(** [generate], closed over the [jdUrl] and [greyHat] of the render whose
    button was clicked. *)
Definition generate (jdUrl : jsstring) (greyHat : bool) : Async unit :=
  if negb (truthy (trim jdUrl)) then
    setError (lit "Please paste a Job Description URL")
  else
    setLoading true ;;
    setError [] ;;
    try_catch_finally
      (res <- await (fetch (generate_request jdUrl greyHat)) ;;
       (if negb (ok res)
        then Throw (Error (lit "Failed to generate resume"))
        else ret tt) ;;
       blob <- await (blob res) ;;
       url <- createObjectURL blob ;;
       a <- createElement (lit "a") ;;
       let a := set_href url a in
       let a := set_download (lit "ATS_Resume.pdf") a in
       appendChild a ;;
       click a ;;
       remove a ;;
       revokeObjectURL url)
      (fun err => setError (or_else (message err) (lit "Something went wrong")))
      (setLoading false).

End Component.

(* ===================================================================== *)
(** ** Running an async function *)
(* ===================================================================== *)

(** What the surroundings decide: how the request of a [fetch] settles and
    which URL [URL.createObjectURL] hands out for a blob. *)
Record World : Type := {
  fetch_outcome : Request -> Settled Response;
  object_url : Blob -> jsstring
}.

(** The effect by which a promise comes to be. *)
Definition issue {T : Type} (p : promise T) : effect :=
  match p with
  | fetch req => FetchCall req
  | blob res => BlobCall res
  end.

(** How a promise settles. *)
Definition settle (w : World) {T : Type} (p : promise T) : Settled T :=
  match p in promise T0 return Settled T0 with
  | fetch req => fetch_outcome w req
  | blob res => body_read res
  end.

(** A complete run: the effects in order, and how the promise of the async
    function settles. *)
Fixpoint exec (w : World) {A : Type} (m : Async A) : list effect * Settled A :=
  match m with
  | Return a => ([], Fulfilled a)
  | Throw e => ([], Rejected e)
  | Perform ef k =>
      let (t, r) := exec w k in (ef :: t, r)
  | NewObjectURL b k =>
      let u := object_url w b in
      let (t, r) := exec w (k u) in (CreateObjectURL b u :: t, r)
  | Await p k =>
      let (t, r) := exec w (k (settle w p)) in (issue p :: t, r)
  end.

Definition trace (w : World) {A : Type} (m : Async A) : list effect :=
  fst (exec w m).

(** The run up to the next [await] (or to the end): the effects, and what
    is left of the function. *)
Fixpoint advance (new_url : Blob -> jsstring) {A : Type} (m : Async A)
  : list effect * Async A :=
  match m with
  | Return a => ([], Return a)
  | Throw e => ([], Throw e)
  | Perform ef k =>
      let (t, m') := advance new_url k in (ef :: t, m')
  | NewObjectURL b k =>
      let u := new_url b in
      let (t, m') := advance new_url (k u) in (CreateObjectURL b u :: t, m')
  | Await p k => ([issue p], Await p k)
  end.

Definition is_suspended {A : Type} (m : Async A) : bool :=
  match m with
  | Await _ _ => true
  | _ => false
  end.

(** A run suspended at [await fetch(..)] goes on with the outcome [o]. *)
Definition resume_fetch {A : Type} (m : Async A) (o : Settled Response)
  : option (Async A) :=
  match m with
  | Await p k =>
      match p in promise T return (Settled T -> Async A) -> option (Async A) with
      | fetch _ => fun k' => Some (k' o)
      | blob _ => fun _ => None
      end k
  | _ => None
  end.

(** A run suspended at [await res.blob()] goes on with what reading the
    body of [res] yields. *)
Definition resume_blob {A : Type} (m : Async A) : option (Async A) :=
  match m with
  | Await p k =>
      match p in promise T return (Settled T -> Async A) -> option (Async A) with
      | fetch _ => fun _ => None
      | blob res => fun k' => Some (k' (body_read res))
      end k
  | _ => None
  end.

(** State cells after a setter call. *)
Definition apply_effect (s : State) (ef : effect) : State :=
  match ef with
  | SetJdUrl v =>
      {| jdUrl := v; greyHat := greyHat s; loading := loading s; error := error s |}
  | SetGreyHat b =>
      {| jdUrl := jdUrl s; greyHat := b; loading := loading s; error := error s |}
  | SetLoading b =>
      {| jdUrl := jdUrl s; greyHat := greyHat s; loading := b; error := error s |}
  | SetError msg =>
      {| jdUrl := jdUrl s; greyHat := greyHat s; loading := loading s; error := msg |}
  | _ => s
  end.

Definition apply_effects (s : State) (t : list effect) : State :=
  fold_left apply_effect t s.

(** ** Observations on a trace *)

Definition is_fetch (ef : effect) : bool :=
  match ef with FetchCall _ => true | _ => false end.

(** The requests sent, in order. *)
Fixpoint fetches (t : list effect) : list Request :=
  match t with
  | [] => []
  | FetchCall req :: t' => req :: fetches t'
  | _ :: t' => fetches t'
  end.

(** The file downloads triggered: a click on an element that carries a
    [download] attribute saves its [href] under that name. *)
Fixpoint downloads (t : list effect) : list (jsstring * jsstring) :=
  match t with
  | [] => []
  | Click el :: t' =>
      match download el with
      | Some name => (name, href el) :: downloads t'
      | None => downloads t'
      end
  | _ :: t' => downloads t'
  end.

(** Effects on the document and on the object-URL store. *)
Definition touches_document (ef : effect) : bool :=
  match ef with
  | CreateObjectURL _ _ | CreateElement _ | AppendChild _
  | Click _ | Remove _ | RevokeObjectURL _ => true
  | _ => false
  end.

(* ===================================================================== *)
(** ** What is rendered *)
(* ===================================================================== *)

Record View : Type := {
  input_value : jsstring;
  checkbox_checked : bool;
  button_disabled : bool;
  button_label : jsstring;
  loader_shown : bool;
  toast : option jsstring
}.

(** The JSX returned by the component, as a function of the state cells. *)
Definition ResumeGenerator (s : State) : View :=
  {| input_value := jdUrl s;
     checkbox_checked := greyHat s;
     button_disabled := loading s;
     button_label :=
       if loading s then lit "Generating" ++ [8230%N] else lit "Generate Resume";
     loader_shown := loading s;
     toast := if truthy (error s) then Some (error s) else None |}.

(* ===================================================================== *)
(** ** The component as a transition system *)
(* ===================================================================== *)

(** A mounted component: the state cells, the runs of [generate] that are
    suspended at an [await], and everything done so far. *)
Record Component : Type := {
  cells : State;
  inflight : list (Async unit);
  log : list effect
}.

Definition mount : Component :=
  {| cells := initial_state; inflight := []; log := [] |}.

(** What can happen to a mounted component. A disabled button dispatches
    no click; React renders again after each of these, so a handler always
    sees the cells as they are. *)
Inductive event : Type :=
| InputChange (v : jsstring)
| CheckboxChange
| ButtonClick
| FetchSettles (i : nat) (o : Settled Response)
| BlobSettles (i : nat).

Section Transitions.

Variable VITE_API_BASE_URL : option jsstring.

(** The URL that [URL.createObjectURL] returns for a blob. *)
Variable new_url : Blob -> jsstring.

(** [onChange={(e) => setJdUrl(e.target.value)}] *)
Definition onChange_input (value : jsstring) : Async unit :=
  perform (SetJdUrl value).

(** [onChange={() => setGreyHat(!greyHat)}] *)
Definition onChange_checkbox (greyHat : bool) : Async unit :=
  perform (SetGreyHat (negb greyHat)).

(** Runs [m] up to its next [await]; [before] and [after] are the other
    suspended runs. *)
Definition schedule (c : Component) (before after : list (Async unit))
  (m : Async unit) : Component :=
  let (t, m') := advance new_url m in
  {| cells := apply_effects (cells c) t;
     inflight := before ++ (if is_suspended m' then [m'] else []) ++ after;
     log := log c ++ t |}.

Definition step (c : Component) (ev : event) : Component :=
  let s := cells c in
  match ev with
  | InputChange v => schedule c (inflight c) [] (onChange_input v)
  | CheckboxChange => schedule c (inflight c) [] (onChange_checkbox (greyHat s))
  | ButtonClick =>
      if button_disabled (ResumeGenerator s) then c
      else schedule c (inflight c) []
             (generate VITE_API_BASE_URL (jdUrl s) (greyHat s))
  | FetchSettles i o =>
      match nth_error (inflight c) i with
      | Some m =>
          match resume_fetch m o with
          | Some m' =>
              schedule c (firstn i (inflight c)) (skipn (S i) (inflight c)) m'
          | None => c
          end
      | None => c
      end
  | BlobSettles i =>
      match nth_error (inflight c) i with
      | Some m =>
          match resume_blob m with
          | Some m' =>
              schedule c (firstn i (inflight c)) (skipn (S i) (inflight c)) m'
          | None => c
          end
      | None => c
      end
  end.

Definition run (c : Component) (evs : list event) : Component :=
  fold_left step evs c.

End Transitions.

(* ===================================================================== *)
(** ** The shape of the runs of [generate] *)
(* ===================================================================== *)

Definition paste_url_message : jsstring :=
  lit "Please paste a Job Description URL".

Definition failed_message : jsstring := lit "Failed to generate resume".

(** The text the [catch] clause shows for the error [e]. *)
Definition caught_message (e : JsError) : jsstring :=
  or_else (message e) (lit "Something went wrong").

(** The anchor at the time it is appended and clicked. *)
Definition anchor (u : jsstring) : Element :=
  {| tagName := lit "a"; href := u; download := Some (lit "ATS_Resume.pdf") |}.

Definition download_steps (b : Blob) (u : jsstring) : list effect :=
  [ CreateObjectURL b u; CreateElement (lit "a"); AppendChild (anchor u);
    Click (anchor u); Remove (anchor u); RevokeObjectURL u ].

(** The effects between the request and the [finally] clause, by the way
    the request settles. *)
Definition after_fetch (w : World) (o : Settled Response) : list effect :=
  match o with
  | Rejected e => [SetError (caught_message e)]
  | Fulfilled res =>
      if ok res then
        BlobCall res ::
        match body_read res with
        | Fulfilled b => download_steps b (object_url w b)
        | Rejected e => [SetError (caught_message e)]
        end
      else [SetError failed_message]
  end.

(** The request failed: [fetch] rejected, the response is not ok, or
    reading its body rejected. *)
Definition failed (o : Settled Response) : bool :=
  match o with
  | Rejected _ => true
  | Fulfilled res =>
      negb (ok res) ||
      match body_read res with
      | Rejected _ => true
      | Fulfilled _ => false
      end
  end.

(** The text shown for a failed request. *)
Definition failure_message (o : Settled Response) : jsstring :=
  match o with
  | Rejected e => caught_message e
  | Fulfilled res =>
      if ok res then
        match body_read res with
        | Rejected e => caught_message e
        | Fulfilled _ => []
        end
      else failed_message
  end.

Definition with_error (msg : jsstring) (s : State) : State :=
  {| jdUrl := jdUrl s; greyHat := greyHat s; loading := loading s; error := msg |}.

(* ===================================================================== *)
(** ** Invariants of suspended runs *)
(* ===================================================================== *)

Definition is_set_loading (ef : effect) : bool :=
  match ef with SetLoading _ => true | _ => false end.

(** The function runs to its end without suspending. *)
Fixpoint no_await {A : Type} (m : Async A) : Prop :=
  match m with
  | Return _ | Throw _ => True
  | Perform _ k => no_await k
  | NewObjectURL _ k => forall u, no_await (k u)
  | Await _ _ => False
  end.

(** Once the function has written [loading] it does not suspend again:
    between two awaits [loading] is left as it is. *)
Fixpoint guarded {A : Type} (m : Async A) : Prop :=
  match m with
  | Return _ | Throw _ => True
  | Perform ef k => guarded k /\ (is_set_loading ef = true -> no_await k)
  | NewObjectURL _ k => forall u, guarded (k u)
  | Await _ k => forall o, guarded (k o)
  end.

(** The component keeps at most one run of [generate] suspended, and
    [loading] is set while there is one. *)
Definition one_in_flight (c : Component) : Prop :=
  match inflight c with
  | [] => True
  | [m] => loading (cells c) = true /\ is_suspended m = true /\ guarded m
  | _ :: _ :: _ => False
  end.

Section Calm.

Variable API_BASE : option jsstring.

(** Effects of a component whose checkbox is never touched: no write to
    [greyHat], and every request carries [grey_hat = true]. *)
Definition expanding (ef : effect) : Prop :=
  match ef with
  | SetGreyHat _ => False
  | FetchCall req => exists u, req = generate_request API_BASE u true
  | _ => True
  end.

Fixpoint calm {A : Type} (m : Async A) : Prop :=
  match m with
  | Return _ | Throw _ => True
  | Perform ef k => expanding ef /\ calm k
  | NewObjectURL b k => forall u, calm (k u)
  | Await p k => expanding (issue p) /\ forall o, calm (k o)
  end.

Definition untouched (c : Component) : Prop :=
  greyHat (cells c) = true /\
  Forall expanding (log c) /\
  Forall calm (inflight c).

End Calm.

Definition is_checkbox_change (ev : event) : bool :=
  match ev with CheckboxChange => true | _ => false end.

(* ===================================================================== *)
(** ** Sample inputs *)
(* ===================================================================== *)

Definition sample_url : jsstring := lit "https://example.com/job/123".

Definition sample_base : option jsstring := Some (lit "http://localhost:8000").

Definition pdf_blob : Blob :=
  {| blob_type := lit "application/pdf"; blob_bytes := [37; 80; 68; 70]%N |}.

Definition ok_response : Response :=
  {| status := 200; statusText := lit "OK"; body_read := Fulfilled pdf_blob |}.

(** A 200 response whose connection breaks while the body is read. *)
Definition cut_response : Response :=
  {| status := 200; statusText := lit "OK";
     body_read := Rejected (Error (lit "network error")) |}.

(** Two failure responses of the backend, with the stage in the body. *)
Definition fetch_stage_response : Response :=
  {| status := 502; statusText := lit "Bad Gateway";
     body_read :=
       Fulfilled {| blob_type := lit "application/json";
                    blob_bytes :=
                      JSON.stringify
                        [(lit "detail",
                          JSON.VString (lit "FetchError: page unreachable"))] |} |}.

Definition generation_stage_response : Response :=
  {| status := 500; statusText := lit "Internal Server Error";
     body_read :=
       Fulfilled {| blob_type := lit "application/json";
                    blob_bytes :=
                      JSON.stringify
                        [(lit "detail",
                          JSON.VString (lit "GenerationError: provider failure"))] |} |}.

Definition world_answering (o : Settled Response) : World :=
  {| fetch_outcome := fun _ => o; object_url := fun _ => lit "blob:1" |}.

(** The toast after a run against a backend that answers [res]. *)
Definition toast_for (res : Response) : option jsstring :=
  toast (ResumeGenerator
           (apply_effects initial_state
              (trace (world_answering (Fulfilled res))
                 (generate sample_base sample_url true)))).

(** What a transition from [c] to [c'] added to the log. *)
Definition emitted (c c' : Component) : list effect :=
  skipn (List.length (log c)) (log c').

(* ===================================================================== *)
(** ** What is left of a run *)
(* ===================================================================== *)

(** Every effect the function can still have, on every path, satisfies
    [P]. *)
Fixpoint always {A : Type} (P : effect -> Prop) (m : Async A) : Prop :=
  match m with
  | Return _ | Throw _ => True
  | Perform ef k => P ef /\ always P k
  | NewObjectURL b k => forall u, P (CreateObjectURL b u) /\ always P (k u)
  | Await p k => P (issue p) /\ forall o, always P (k o)
  end.

(** [Q] holds of a suspended run however its promise settles. *)
Definition resumes {A : Type} (Q : Async A -> Prop) (m : Async A) : Prop :=
  match m with
  | Await _ k => forall o, Q (k o)
  | _ => True
  end.

(** Every stretch of the function (the effects from one suspension to the
    next, or to the end) satisfies [Q]; [acc] is the stretch so far. *)
Fixpoint stretches {A : Type} (Q : list effect -> Prop) (acc : list effect)
  (m : Async A) : Prop :=
  match m with
  | Return _ | Throw _ => Q acc
  | Perform ef k => stretches Q (acc ++ [ef]) k
  | NewObjectURL b k =>
      forall u, stretches Q (acc ++ [CreateObjectURL b u]) (k u)
  | Await p k => Q (acc ++ [issue p]) /\ forall o, stretches Q [] (k o)
  end.

(** On every path the function sends no request and triggers at most [n]
    downloads. *)
Fixpoint budget {A : Type} (n : nat) (m : Async A) : Prop :=
  match m with
  | Return _ | Throw _ => True
  | Perform ef k =>
      match ef with
      | FetchCall _ => False
      | Click el =>
          match download el, n with
          | Some _, O => False
          | Some _, S n' => budget n' k
          | None, _ => budget n k
          end
      | _ => budget n k
      end
  | NewObjectURL _ k => forall u, budget n (k u)
  | Await p k => is_fetch (issue p) = false /\ forall o, budget n (k o)
  end.

(** With [loading] equal to [l] now, the function leaves it [false] on
    every path to its end. *)
Fixpoint ends_idle {A : Type} (l : bool) (m : Async A) : Prop :=
  match m with
  | Return _ | Throw _ => l = false
  | Perform ef k =>
      ends_idle (match ef with SetLoading b => b | _ => l end) k
  | NewObjectURL _ k => forall u, ends_idle l (k u)
  | Await _ k => forall o, ends_idle l (k o)
  end.

(** ** Further observations on a trace *)

Fixpoint created_urls (t : list effect) : list jsstring :=
  match t with
  | [] => []
  | CreateObjectURL _ u :: t' => u :: created_urls t'
  | _ :: t' => created_urls t'
  end.

Fixpoint revoked_urls (t : list effect) : list jsstring :=
  match t with
  | [] => []
  | RevokeObjectURL u :: t' => u :: revoked_urls t'
  | _ :: t' => revoked_urls t'
  end.

Fixpoint appended (t : list effect) : list Element :=
  match t with
  | [] => []
  | AppendChild el :: t' => el :: appended t'
  | _ :: t' => appended t'
  end.

Fixpoint removed (t : list effect) : list Element :=
  match t with
  | [] => []
  | Remove el :: t' => el :: removed t'
  | _ :: t' => removed t'
  end.

(** The object URLs made have been revoked and the elements appended have
    been removed, in the same order. *)
Definition tidy (t : list effect) : Prop :=
  created_urls t = revoked_urls t /\ appended t = removed t.

(** The effect is not a write to [jdUrl] or [greyHat]. *)
Definition leaves_inputs (ef : effect) : Prop :=
  match ef with
  | SetJdUrl _ | SetGreyHat _ => False
  | _ => True
  end.

(** A click saves under the name the source gives the anchor. *)
Definition saves_as_pdf (ef : effect) : Prop :=
  match ef with
  | Click el =>
      tagName el = lit "a" /\ download el = Some (lit "ATS_Resume.pdf")
  | _ => True
  end.

(** ** Observations on the events *)

(** What the user typed last into the input, [start] if nothing. *)
Definition last_input (evs : list event) (start : jsstring) : jsstring :=
  fold_left (fun v ev => match ev with InputChange x => x | _ => v end)
    evs start.

(** The checkbox after the changes among the events. *)
Definition toggled (evs : list event) (start : bool) : bool :=
  fold_left (fun b ev => match ev with CheckboxChange => negb b | _ => b end)
    evs start.

Definition is_button_click (ev : event) : bool :=
  match ev with ButtonClick => true | _ => false end.

Definition is_edit (ev : event) : bool :=
  match ev with InputChange _ | CheckboxChange => true | _ => false end.

(** One click and the settling of the two promises of the run. *)
Definition cycle (o : Settled Response) : list event :=
  [ButtonClick; FetchSettles 0 o; BlobSettles 0].

(** The world in which every request settles as [o]. *)
Definition world_of (new_url : Blob -> jsstring) (o : Settled Response) : World :=
  {| fetch_outcome := fun _ => o; object_url := new_url |}.

(** [loading] is set exactly while one run is suspended, and that run
    keeps it set until it resets it at its end. *)
Definition loading_tracks_flight (c : Component) : Prop :=
  match inflight c with
  | [] => loading (cells c) = false
  | [m] =>
      loading (cells c) = true /\
      resumes (fun k => guarded k /\ ends_idle true k) m
  | _ :: _ :: _ => False
  end.

(** The downloads so far, and those the suspended run may still trigger,
    are covered by the requests sent. *)
Definition downloads_covered (c : Component) : Prop :=
  match inflight c with
  | [] => (List.length (downloads (log c)) <= List.length (fetches (log c)))%nat
  | [m] =>
      exists b,
        (List.length (downloads (log c)) + b
           <= List.length (fetches (log c)))%nat /\
        resumes (budget b) m
  | _ :: _ :: _ => False
  end.

(* ===================================================================== *)
(** ** Facts about strings *)
(* ===================================================================== *)

Lemma trimStart_all_white_space (s : jsstring) :
  all_white_space s = true -> trimStart s = [].
Proof.
  induction s as [|c rest IH]; simpl; [reflexivity|].
  intros H. apply andb_true_iff in H as [Hc Hrest].
  rewrite Hc. exact (IH Hrest).
Qed.

Lemma trimStart_nil_all_white_space (s : jsstring) :
  trimStart s = [] -> all_white_space s = true.
Proof.
  induction s as [|c rest IH]; simpl; [reflexivity|].
  destruct (is_white_space c); [intros H; exact (IH H) | discriminate].
Qed.

(** What [trimStart] leaves is empty or starts with a character that is
    not white space. *)
Lemma trimStart_head (s : jsstring) :
  match trimStart s with
  | [] => True
  | c :: _ => is_white_space c = false
  end.
Proof.
  induction s as [|c rest IH]; simpl; [exact I|].
  destruct (is_white_space c) eqn:E; [exact IH | exact E].
Qed.

Lemma all_white_space_rev (s : jsstring) :
  all_white_space (rev s) = all_white_space s.
Proof.
  unfold all_white_space.
  induction s as [|c rest IH]; simpl; [reflexivity|].
  rewrite forallb_app, IH. simpl. rewrite andb_true_r. apply andb_comm.
Qed.

(** [trim] returns the empty string exactly on the strings made of white
    space only. *)
Lemma trim_nil_iff (s : jsstring) :
  trim s = [] <-> all_white_space s = true.
Proof.
  unfold trim, trimEnd. split.
  - intros H.
    assert (Hr : trimStart (rev (trimStart s)) = []).
    { destruct (trimStart (rev (trimStart s))) as [|x l]; [reflexivity|].
      simpl in H. destruct (rev l); discriminate. }
    apply trimStart_nil_all_white_space in Hr.
    rewrite all_white_space_rev in Hr.
    apply trimStart_nil_all_white_space.
    pose proof (trimStart_head s) as Hh.
    destruct (trimStart s) as [|c l]; [reflexivity|].
    simpl in Hr. rewrite Hh in Hr. discriminate.
  - intros H. rewrite (trimStart_all_white_space s H). reflexivity.
Qed.

Lemma truthy_trim_false_iff (s : jsstring) :
  truthy (trim s) = false <-> all_white_space s = true.
Proof.
  rewrite <- trim_nil_iff. destruct (trim s); simpl; split; congruence.
Qed.

Lemma truthy_or_else (a b : jsstring) :
  truthy b = true -> truthy (or_else a b) = true.
Proof.
  unfold or_else. destruct (truthy a) eqn:E; auto.
Qed.

Section Runs.

Variable API_BASE : option jsstring.
Variable w : World.

Lemma generate_rejected (u : jsstring) (g : bool) :
  truthy (trim u) = false ->
  generate API_BASE u g = setError paste_url_message.
Proof.
  intros H. unfold generate. rewrite H. reflexivity.
Qed.

Lemma trace_rejected (u : jsstring) (g : bool) :
  truthy (trim u) = false ->
  trace w (generate API_BASE u g) = [SetError paste_url_message].
Proof.
  intros H. rewrite (generate_rejected u g H). reflexivity.
Qed.

Lemma trace_accepted (u : jsstring) (g : bool) :
  truthy (trim u) = true ->
  trace w (generate API_BASE u g) =
    [SetLoading true; SetError []; FetchCall (generate_request API_BASE u g)]
    ++ after_fetch w (fetch_outcome w (generate_request API_BASE u g))
    ++ [SetLoading false].
Proof.
  intros H. unfold generate, trace. rewrite H. simpl.
  destruct (fetch_outcome w (generate_request API_BASE u g)) as [res|e];
    simpl; [|reflexivity].
  destruct (ok res); simpl; [|reflexivity].
  destruct (body_read res) as [b|e]; reflexivity.
Qed.

End Runs.

(* ===================================================================== *)
(** ** [JSON.parse] inverts [JSON.stringify] *)
(* ===================================================================== *)

Module JSONFacts.

Import JSON.

Lemma hex_value_digit (d : N) :
  (d < 16)%N -> hex_value (hex_digit d) = Some d.
Proof.
  intros H.
  assert (Hd : In d [0; 1; 2; 3; 4; 5; 6; 7; 8; 9; 10; 11; 12; 13; 14; 15]%N)
    by (simpl; lia).
  simpl in Hd.
  repeat (destruct Hd as [<-|Hd]; [reflexivity|]). contradiction.
Qed.

Lemma hex_digits_value (c : N) :
  (c < 65536)%N ->
  (4096 * ((c / 4096) mod 16) + 256 * ((c / 256) mod 16)
   + 16 * ((c / 16) mod 16) + c mod 16 = c)%N.
Proof.
  intros H.
  pose proof (N.div_mod c 16 ltac:(discriminate)) as E0.
  pose proof (N.div_mod (c / 16) 16 ltac:(discriminate)) as E1.
  pose proof (N.div_mod (c / 256) 16 ltac:(discriminate)) as E2.
  rewrite N.Div0.div_div in E1. change (16 * 16)%N with 256%N in E1.
  rewrite N.Div0.div_div in E2. change (256 * 16)%N with 4096%N in E2.
  assert (H3 : (c / 4096 < 16)%N) by (apply N.Div0.div_lt_upper_bound; lia).
  rewrite (N.mod_small (c / 4096) 16 H3).
  lia.
Qed.

Lemma read_chars_literal (c : N) (r : jsstring) :
  c <> 34%N -> c <> 92%N -> read_chars (c :: r) = cons_char c (read_chars r).
Proof.
  intros H1 H2. simpl.
  rewrite (proj2 (N.eqb_neq c 34) H1), (proj2 (N.eqb_neq c 92) H2). reflexivity.
Qed.

Lemma read_chars_unicode (c : N) (r : jsstring) :
  (c < 65536)%N ->
  read_chars (unicode_escape c ++ r) = cons_char c (read_chars r).
Proof.
  intros H. unfold unicode_escape.
  change (read_chars ([92; 117; hex_digit ((c / 4096) mod 16);
                       hex_digit ((c / 256) mod 16);
                       hex_digit ((c / 16) mod 16); hex_digit (c mod 16)]%N ++ r))
    with (match hex_value (hex_digit ((c / 4096) mod 16)),
                hex_value (hex_digit ((c / 256) mod 16)),
                hex_value (hex_digit ((c / 16) mod 16)),
                hex_value (hex_digit (c mod 16)) with
          | Some d3, Some d2, Some d1, Some d0 =>
              cons_char (4096 * d3 + 256 * d2 + 16 * d1 + d0)%N (read_chars r)
          | _, _, _, _ => None
          end).
  rewrite !hex_value_digit by (apply N.mod_lt; discriminate).
  rewrite (hex_digits_value c H). reflexivity.
Qed.

Lemma read_chars_escape_unit (c : N) (r : jsstring) :
  read_chars (escape_unit c ++ r) = cons_char c (read_chars r).
Proof.
  unfold escape_unit.
  destruct (N.eqb_spec c 8) as [->|N8]; [reflexivity|].
  destruct (N.eqb_spec c 9) as [->|N9]; [reflexivity|].
  destruct (N.eqb_spec c 10) as [->|N10]; [reflexivity|].
  destruct (N.eqb_spec c 12) as [->|N12]; [reflexivity|].
  destruct (N.eqb_spec c 13) as [->|N13]; [reflexivity|].
  destruct (N.eqb_spec c 34) as [->|N34]; [reflexivity|].
  destruct (N.eqb_spec c 92) as [->|N92]; [reflexivity|].
  destruct ((c <? 32)%N || is_lead_surrogate c || is_trail_surrogate c) eqn:E.
  - apply read_chars_unicode.
    unfold is_lead_surrogate, is_trail_surrogate in E.
    apply orb_true_iff in E as [E|E]; [apply orb_true_iff in E as [E|E]|].
    + apply N.ltb_lt in E. lia.
    + apply andb_true_iff in E as [_ E]. apply N.leb_le in E. lia.
    + apply andb_true_iff in E as [_ E]. apply N.leb_le in E. lia.
  - apply read_chars_literal; assumption.
Qed.

Lemma list_pair_ind {A : Type} (P : list A -> Prop) :
  P [] ->
  (forall a, P [a]) ->
  (forall a b l, P l -> P (b :: l) -> P (a :: b :: l)) ->
  forall l, P l.
Proof.
  intros H0 H1 H2.
  assert (H : forall l, P l /\ forall a, P (a :: l)).
  { induction l as [|b l [IH1 IH2]]; [split; auto|].
    split; [apply IH2|]. intros a. apply H2; auto. }
  intros l. apply H.
Qed.

Lemma read_chars_quote_chars (s tl : jsstring) :
  read_chars (quote_chars s ++ 34%N :: tl) = Some (s, tl).
Proof.
  revert tl. induction s as [|a|a b l IHl IHbl] using list_pair_ind; intros tl.
  - reflexivity.
  - simpl quote_chars. rewrite read_chars_escape_unit. reflexivity.
  - change (quote_chars (a :: b :: l))
      with (if is_lead_surrogate a && is_trail_surrogate b
            then a :: b :: quote_chars l
            else escape_unit a ++ quote_chars (b :: l)).
    destruct (is_lead_surrogate a && is_trail_surrogate b) eqn:E.
    + apply andb_true_iff in E as [Ea Eb].
      unfold is_lead_surrogate in Ea. unfold is_trail_surrogate in Eb.
      apply andb_true_iff in Ea as [Ea _]. apply N.leb_le in Ea.
      apply andb_true_iff in Eb as [Eb _]. apply N.leb_le in Eb.
      rewrite <- !app_comm_cons.
      rewrite read_chars_literal by lia.
      rewrite read_chars_literal by lia.
      rewrite IHl. reflexivity.
    + rewrite <- app_assoc, read_chars_escape_unit, IHbl. reflexivity.
Qed.

Lemma read_string_quote (s tl : jsstring) :
  read_string (quote s ++ tl) = Some (s, tl).
Proof.
  unfold quote. rewrite <- !app_assoc. simpl.
  apply read_chars_quote_chars.
Qed.

Lemma read_value_stringify (v : value) (tl : jsstring) :
  read_value (stringify_value v ++ tl) = Some (v, tl).
Proof.
  destruct v as [s|[|]]; unfold read_value; simpl stringify_value.
  - rewrite read_string_quote. reflexivity.
  - reflexivity.
  - reflexivity.
Qed.

Lemma read_properties_step (fuel : nat) (k : jsstring) (v : value)
  (rest : jsstring) :
  read_properties (S fuel) (stringify_property (k, v) ++ rest) =
    match rest with
    | d :: s2 =>
        if (d =? 44)%N then
          match read_properties fuel s2 with
          | Some (ps, tl) => Some ((k, v) :: ps, tl)
          | None => None
          end
        else if (d =? 125)%N then Some ([(k, v)], s2)
        else None
    | [] => None
    end.
Proof.
  unfold stringify_property. cbn [fst snd read_properties].
  rewrite <- !app_assoc. rewrite read_string_quote.
  change (lit ":" ++ stringify_value v ++ rest)
    with (58%N :: stringify_value v ++ rest).
  cbv iota beta. rewrite N.eqb_refl, read_value_stringify.
  reflexivity.
Qed.

Lemma join_comma_cons (p q : jsstring) (more : list jsstring) :
  join_comma (p :: q :: more) = p ++ lit "," ++ join_comma (q :: more).
Proof. reflexivity. Qed.

Lemma read_properties_join (ps : object) (p : jsstring * value)
  (fuel : nat) (tl : jsstring) :
  (List.length ps < fuel)%nat ->
  read_properties fuel
    (join_comma (map stringify_property (p :: ps)) ++ 125%N :: tl)
  = Some (p :: ps, tl).
Proof.
  revert p fuel. induction ps as [|q ps IH]; intros [k v] fuel Hf;
    (destruct fuel as [|fuel]; [simpl in Hf; lia|]).
  - cbn [map join_comma]. rewrite read_properties_step. reflexivity.
  - cbn [map]. rewrite join_comma_cons, <- !app_assoc.
    rewrite read_properties_step.
    change (lit "," ++ ?x) with (44%N :: x).
    cbv iota beta. rewrite N.eqb_refl.
    change (stringify_property q :: map stringify_property ps)
      with (map stringify_property (q :: ps)).
    rewrite IH by (simpl in Hf; lia). reflexivity.
Qed.

Lemma join_comma_length (ps : object) :
  (List.length ps <= List.length (join_comma (map stringify_property ps)))%nat.
Proof.
  induction ps as [|[k v] [|q ps] IH].
  - simpl. lia.
  - simpl. lia.
  - cbn [map] in *. rewrite join_comma_cons, !length_app.
    change (lit ",") with [44%N]. cbn [List.length] in *. lia.
Qed.

Lemma parse_stringify (o : object) : parse (stringify o) = Some o.
Proof.
  destruct o as [|p ps]; [reflexivity|].
  unfold stringify.
  pose proof (join_comma_length (p :: ps)) as Hlen.
  assert (Hr : forall n, (List.length (p :: ps) <= n)%nat ->
             read_properties (S n)
               (join_comma (map stringify_property (p :: ps)) ++ [125%N])
             = Some (p :: ps, [])).
  { intros n Hn. apply read_properties_join. simpl in Hn. lia. }
  set (J := join_comma (map stringify_property (p :: ps))) in *.
  change (lit "{" ++ J ++ lit "}") with (123%N :: J ++ [125%N]).
  unfold parse. rewrite N.eqb_refl.
  destruct J as [|x J]; [simpl in Hlen; lia|].
  rewrite <- app_comm_cons in *.
  destruct (J ++ [125%N]) as [|y R] eqn:ER.
  { destruct J; discriminate. }
  cbv iota beta. cbn [List.length].
  rewrite Hr; [reflexivity|].
  apply (f_equal (@List.length N)) in ER. rewrite length_app in ER.
  simpl List.length in *. lia.
Qed.

End JSONFacts.

(* ===================================================================== *)
(** ** Facts about traces *)
(* ===================================================================== *)

Lemma fetches_app (t1 t2 : list effect) :
  fetches (t1 ++ t2) = fetches t1 ++ fetches t2.
Proof.
  induction t1 as [|ef t1 IH]; simpl; [reflexivity|].
  destruct ef; simpl; rewrite IH; reflexivity.
Qed.

Lemma downloads_app (t1 t2 : list effect) :
  downloads (t1 ++ t2) = downloads t1 ++ downloads t2.
Proof.
  induction t1 as [|ef t1 IH]; simpl; [reflexivity|].
  destruct ef; simpl; rewrite IH; try reflexivity.
  destruct (download el); reflexivity.
Qed.

Lemma apply_effects_app (s : State) (t1 t2 : list effect) :
  apply_effects s (t1 ++ t2) = apply_effects (apply_effects s t1) t2.
Proof.
  unfold apply_effects. apply fold_left_app.
Qed.

Lemma fetches_after_fetch (w : World) (o : Settled Response) :
  fetches (after_fetch w o) = [].
Proof.
  destruct o as [res|e]; simpl; [|reflexivity].
  destruct (ok res); simpl; [|reflexivity].
  destruct (body_read res); reflexivity.
Qed.

Lemma truthy_caught_message (e : JsError) : truthy (caught_message e) = true.
Proof.
  unfold caught_message. apply truthy_or_else. reflexivity.
Qed.

Lemma truthy_failure_message (o : Settled Response) :
  failed o = true -> truthy (failure_message o) = true.
Proof.
  destruct o as [res|e]; simpl; [|intros _; apply truthy_caught_message].
  destruct (ok res); simpl; [|reflexivity].
  destruct (body_read res); [discriminate | intros _; apply truthy_caught_message].
Qed.

Lemma after_fetch_failed (w : World) (o : Settled Response) :
  failed o = true ->
  exists net,
    after_fetch w o = net ++ [SetError (failure_message o)] /\
    (net = [] \/ exists res, net = [BlobCall res]).
Proof.
  destruct o as [res|e]; simpl.
  - destruct (ok res); simpl.
    + destruct (body_read res); [discriminate|].
      intros _. exists [BlobCall res]. split; [reflexivity | right; eauto].
    + intros _. exists []. split; [reflexivity | left; reflexivity].
  - intros _. exists []. split; [reflexivity | left; reflexivity].
Qed.

(* ===================================================================== *)
(** ** Input validation *)
(* ===================================================================== *)

(** C1: with an empty [jdUrl], [generate] stops at the validation: its only
    effect is [setError] with the request to paste a URL, it never reaches
    an [await], no [fetch] is issued, and the message is shown in the
    toast. *)
Theorem generate_empty_url_rejected
  (API_BASE : option jsstring) (w : World) (g : bool) (s : State) :
  let t := trace w (generate API_BASE [] g) in
  t = [SetError (lit "Please paste a Job Description URL")] /\
  no_await (generate API_BASE [] g) /\
  fetches t = [] /\
  toast (ResumeGenerator (apply_effects s t)) =
    Some (lit "Please paste a Job Description URL").
Proof.
  simpl. repeat split.
Qed.

Section Blank.

Variable API_BASE : option jsstring.
Variable new_url : Blob -> jsstring.

Lemma click_rejected (c : Component) :
  loading (cells c) = false ->
  truthy (trim (jdUrl (cells c))) = false ->
  step API_BASE new_url c ButtonClick =
    {| cells := with_error paste_url_message (cells c);
       inflight := inflight c;
       log := log c ++ [SetError paste_url_message] |}.
Proof.
  intros Hl Ht. unfold step. simpl. rewrite Hl.
  unfold schedule. rewrite (generate_rejected API_BASE _ _ Ht). simpl.
  rewrite app_nil_r. reflexivity.
Qed.

End Blank.

(** C10: a [jdUrl] made of white space only is rejected like the empty
    one: [trim] leaves nothing, the run is the run on the empty string, no
    request is sent, and of the state cells only [error] is written, so
    that [loading] stays [false] when the button is clicked. *)
Theorem generate_blank_url_rejected
  (API_BASE : option jsstring) (w : World) (new_url : Blob -> jsstring)
  (u : jsstring) (g : bool) (c : Component)
  (Hblank : all_white_space u = true)
  (Hurl : jdUrl (cells c) = u)
  (Hidle : loading (cells c) = false) :
  let t := trace w (generate API_BASE u g) in
  trim u = [] /\
  generate API_BASE u g = generate API_BASE [] g /\
  t = [SetError (lit "Please paste a Job Description URL")] /\
  fetches t = [] /\
  (forall s, apply_effects s t =
     {| jdUrl := jdUrl s; greyHat := greyHat s; loading := loading s;
        error := lit "Please paste a Job Description URL" |}) /\
  let c' := step API_BASE new_url c ButtonClick in
  loading (cells c') = false /\
  inflight c' = inflight c /\
  fetches (log c') = fetches (log c) /\
  cells c' = with_error (lit "Please paste a Job Description URL") (cells c).
Proof.
  pose proof (proj2 (truthy_trim_false_iff u) Hblank) as Ht.
  assert (Hgen : generate API_BASE u g = generate API_BASE [] g).
  { rewrite (generate_rejected API_BASE u g Ht). reflexivity. }
  cbv zeta. rewrite (trace_rejected API_BASE w u g Ht).
  split; [apply trim_nil_iff; exact Hblank|].
  split; [exact Hgen|].
  split; [reflexivity|]. split; [reflexivity|]. split; [reflexivity|].
  rewrite <- Hurl in Ht.
  rewrite (click_rejected API_BASE new_url c Hidle Ht). simpl.
  split; [exact Hidle|]. split; [reflexivity|].
  split; [|reflexivity].
  rewrite fetches_app. simpl. apply app_nil_r.
Qed.

Lemma generate_blank_url_rejected_witness :
  let u := [32; 9; 10; 160; 8195; 12288; 65279]%N in
  let c := {| cells := {| jdUrl := u; greyHat := true; loading := false;
                          error := [] |};
              inflight := []; log := [] |} in
  trim u = [] /\
  loading (cells (step sample_base (fun _ => lit "blob:1") c ButtonClick)) = false.
Proof.
  pose proof (generate_blank_url_rejected sample_base
                (world_answering (Fulfilled ok_response))
                (fun _ => lit "blob:1")
                [32; 9; 10; 160; 8195; 12288; 65279]%N true
                {| cells := {| jdUrl := [32; 9; 10; 160; 8195; 12288; 65279]%N;
                               greyHat := true; loading := false; error := [] |};
                   inflight := []; log := [] |}
                eq_refl eq_refl eq_refl) as H.
  cbv zeta in H. destruct H as (H1 & _ & _ & _ & _ & H2 & _).
  split; [exact H1 | exact H2].
Defined.

(* ===================================================================== *)
(** ** The request *)
(* ===================================================================== *)

(** The serialized body, spelled out. *)
Lemma stringify_payload (u : jsstring) (g : bool) :
  JSON.stringify (payload u g) =
    lit "{" ++ JSON.quote (lit "jd_url") ++ lit ":" ++ JSON.quote u ++ lit ","
    ++ JSON.quote (lit "grey_hat") ++ lit ":"
    ++ (if g then lit "true" else lit "false") ++ lit "}".
Proof.
  unfold JSON.stringify, payload. simpl map. unfold JSON.join_comma.
  unfold JSON.stringify_property. simpl fst. simpl snd.
  unfold JSON.stringify_value.
  repeat rewrite <- app_assoc. destruct g; reflexivity.
Qed.

(** C2, as the code has it: when [jdUrl] is not blank, whatever the flag
    and however the request settles, the run sends exactly one request: a
    POST to [/generate-resume-from-url] under the configured base, with
    the JSON content type, and as body the serialization of the object
    with the two properties [jd_url] (the string as entered, not trimmed)
    and [grey_hat]. *)
Theorem generate_sends_one_post
  (API_BASE : option jsstring) (w : World) (u : jsstring) (g : bool)
  (Hurl : truthy (trim u) = true) :
  let req :=
    {| url := template_subst API_BASE ++ lit "/generate-resume-from-url";
       method := lit "POST";
       headers := [ (lit "Content-Type", lit "application/json") ];
       body := JSON.stringify [ (lit "jd_url", JSON.VString u);
                                (lit "grey_hat", JSON.VBoolean g) ] |} in
  fetches (trace w (generate API_BASE u g)) = [req] /\
  JSON.parse (body req) =
    Some [ (lit "jd_url", JSON.VString u); (lit "grey_hat", JSON.VBoolean g) ].
Proof.
  cbv zeta. split; [|apply JSONFacts.parse_stringify].
  rewrite (trace_accepted API_BASE w u g Hurl).
  rewrite !fetches_app, fetches_after_fetch. reflexivity.
Qed.

Lemma generate_sends_one_post_witness :
  List.length (fetches (trace (world_answering (Fulfilled ok_response))
                     (generate sample_base sample_url false))) = 1.
Proof.
  rewrite (proj1 (generate_sends_one_post sample_base
                    (world_answering (Fulfilled ok_response)) sample_url false
                    eq_refl)).
  reflexivity.
Defined.

(** C2 as stated fails: a [jdUrl] of one space is not the empty string,
    and no request is sent for it. *)
Lemma blank_url_sends_no_post :
  lit " " <> [] /\
  fetches (trace (world_answering (Fulfilled ok_response))
             (generate sample_base (lit " ") true)) = [].
Proof.
  split; [discriminate | reflexivity].
Qed.

(* ===================================================================== *)
(** ** The download *)
(* ===================================================================== *)

(** C3, as the code has it: when the response is ok and its body is read
    to a blob, the run asks for the blob, makes an object URL for it,
    triggers exactly one download, of that URL under the name
    [ATS_Resume.pdf], and leaves [error] empty. *)
Theorem generate_success_downloads_pdf
  (API_BASE : option jsstring) (w : World) (u : jsstring) (g : bool)
  (res : Response) (b : Blob) (s : State)
  (Hurl : truthy (trim u) = true)
  (Hres : fetch_outcome w (generate_request API_BASE u g) = Fulfilled res)
  (Hok : ok res = true)
  (Hbody : body_read res = Fulfilled b) :
  let t := trace w (generate API_BASE u g) in
  In (BlobCall res) t /\
  In (CreateObjectURL b (object_url w b)) t /\
  downloads t = [ (lit "ATS_Resume.pdf", object_url w b) ] /\
  error (apply_effects s t) = [] /\
  toast (ResumeGenerator (apply_effects s t)) = None.
Proof.
  cbv zeta. rewrite (trace_accepted API_BASE w u g Hurl), Hres.
  simpl. rewrite Hok, Hbody. simpl. intuition.
Qed.

Lemma generate_success_downloads_pdf_witness :
  downloads (trace (world_answering (Fulfilled ok_response))
               (generate sample_base sample_url true)) =
    [ (lit "ATS_Resume.pdf", lit "blob:1") ].
Proof.
  exact (proj1 (proj2 (proj2
    (generate_success_downloads_pdf sample_base
       (world_answering (Fulfilled ok_response)) sample_url true
       ok_response pdf_blob initial_state eq_refl eq_refl eq_refl eq_refl)))).
Defined.

(** C3 as stated fails: a 200 response whose body cannot be read to its
    end leads to no download, and the failure is shown. *)
Lemma ok_response_without_download :
  let t := trace (world_answering (Fulfilled cut_response))
             (generate sample_base sample_url true) in
  ok cut_response = true /\
  downloads t = [] /\
  error (apply_effects initial_state t) = lit "network error".
Proof.
  repeat split.
Qed.

(* ===================================================================== *)
(** ** Failures *)
(* ===================================================================== *)

(** C4, as the code has it: for a response that is not ok the run never
    reads the response; it shows the fixed text [Failed to generate resume]
    in the toast, whatever the status and the body of the response are. *)
Theorem generate_not_ok_shows_fixed_text
  (API_BASE : option jsstring) (w : World) (u : jsstring) (g : bool)
  (res : Response) (s : State)
  (Hurl : truthy (trim u) = true)
  (Hres : fetch_outcome w (generate_request API_BASE u g) = Fulfilled res)
  (Hok : ok res = false) :
  let t := trace w (generate API_BASE u g) in
  t = [ SetLoading true; SetError [];
        FetchCall (generate_request API_BASE u g);
        SetError (lit "Failed to generate resume"); SetLoading false ] /\
  toast (ResumeGenerator (apply_effects s t)) =
    Some (lit "Failed to generate resume").
Proof.
  cbv zeta. rewrite (trace_accepted API_BASE w u g Hurl), Hres.
  simpl. rewrite Hok. simpl. split; reflexivity.
Qed.

Lemma generate_not_ok_shows_fixed_text_witness :
  toast (ResumeGenerator
           (apply_effects initial_state
              (trace (world_answering (Fulfilled generation_stage_response))
                 (generate sample_base sample_url true)))) =
    Some (lit "Failed to generate resume").
Proof.
  exact (proj2
    (generate_not_ok_shows_fixed_text sample_base
       (world_answering (Fulfilled generation_stage_response)) sample_url true
       generation_stage_response initial_state eq_refl eq_refl eq_refl)).
Defined.

(** C4 as stated fails: two responses that name different failed stages
    give the same toast, and its text is neither the status text nor the
    body of the response. *)
Lemma toast_ignores_response :
  ok fetch_stage_response = false /\
  ok generation_stage_response = false /\
  body_read fetch_stage_response <> body_read generation_stage_response /\
  toast_for fetch_stage_response = toast_for generation_stage_response /\
  toast_for generation_stage_response <>
    Some (statusText generation_stage_response) /\
  toast_for generation_stage_response <>
    Some (JSON.stringify
            [(lit "detail", JSON.VString (lit "GenerationError: provider failure"))]) /\
  toast_for generation_stage_response <>
    Some (lit "GenerationError: provider failure").
Proof.
  split; [reflexivity|]. split; [reflexivity|].
  split; [intros H; vm_compute in H; discriminate|].
  split; [vm_compute; reflexivity|].
  split; [intros H; vm_compute in H; discriminate|].
  split; intros H; vm_compute in H; discriminate.
Qed.

(** C5: when the request fails (the promise of [fetch] rejects, the
    response is not ok, or reading the body rejects) the run triggers no
    download and touches neither the document nor the object-URL store;
    [jdUrl] and [greyHat] are as before, [loading] is back to [false] and
    [error] holds a non-empty message, so that from an idle component the
    only cell that changes is [error]. *)
Theorem failed_request_leaves_no_output
  (API_BASE : option jsstring) (w : World) (u : jsstring) (g : bool) (s : State)
  (Hurl : truthy (trim u) = true)
  (Hfail : failed (fetch_outcome w (generate_request API_BASE u g)) = true) :
  let t := trace w (generate API_BASE u g) in
  let msg := failure_message (fetch_outcome w (generate_request API_BASE u g)) in
  downloads t = [] /\
  forallb (fun ef => negb (touches_document ef)) t = true /\
  truthy msg = true /\
  apply_effects s t =
    {| jdUrl := jdUrl s; greyHat := greyHat s; loading := false; error := msg |} /\
  (loading s = false -> apply_effects s t = with_error msg s) /\
  toast (ResumeGenerator (apply_effects s t)) = Some msg.
Proof.
  cbv zeta. rewrite (trace_accepted API_BASE w u g Hurl).
  pose proof (truthy_failure_message _ Hfail) as Hmsg.
  destruct (after_fetch_failed w _ Hfail) as (net & Hnet & Hshape).
  rewrite Hnet.
  set (msg := failure_message (fetch_outcome w (generate_request API_BASE u g))) in *.
  assert (Hfinal : forall s0,
    apply_effects s0
      ([SetLoading true; SetError []; FetchCall (generate_request API_BASE u g)]
       ++ (net ++ [SetError msg]) ++ [SetLoading false]) =
    {| jdUrl := jdUrl s0; greyHat := greyHat s0; loading := false; error := msg |}).
  { intros s0. destruct Hshape as [-> | [res ->]]; reflexivity. }
  split; [destruct Hshape as [-> | [res ->]]; reflexivity|].
  split; [destruct Hshape as [-> | [res ->]]; reflexivity|].
  split; [exact Hmsg|].
  split; [apply Hfinal|].
  split.
  - intros Hidle. rewrite Hfinal. unfold with_error. rewrite Hidle. reflexivity.
  - rewrite Hfinal. simpl. rewrite Hmsg. reflexivity.
Qed.

Lemma failed_request_leaves_no_output_witness :
  downloads (trace (world_answering (Rejected (Error (lit "Failed to fetch"))))
               (generate sample_base sample_url true)) = [] /\
  downloads (trace (world_answering (Fulfilled cut_response))
               (generate sample_base sample_url true)) = [].
Proof.
  split.
  - exact (proj1
      (failed_request_leaves_no_output sample_base
         (world_answering (Rejected (Error (lit "Failed to fetch"))))
         sample_url true initial_state eq_refl eq_refl)).
  - exact (proj1
      (failed_request_leaves_no_output sample_base
         (world_answering (Fulfilled cut_response))
         sample_url true initial_state eq_refl eq_refl)).
Defined.

(* ===================================================================== *)
(** ** Suspended runs *)
(* ===================================================================== *)

Lemma apply_effects_cons (s : State) (ef : effect) (t : list effect) :
  apply_effects s (ef :: t) = apply_effects (apply_effect s ef) t.
Proof. reflexivity. Qed.

Lemma loading_apply_effect (s : State) (ef : effect) :
  is_set_loading ef = false -> loading (apply_effect s ef) = loading s.
Proof.
  destruct ef; simpl; intros H; try reflexivity; discriminate.
Qed.

Section Advance.

Variable new_url : Blob -> jsstring.

Lemma no_await_advance {A : Type} (m : Async A) :
  no_await m -> is_suspended (snd (advance new_url m)) = false.
Proof.
  induction m as [a|e|ef k IH|b k IH|T p k IH]; simpl; intros H.
  - reflexivity.
  - reflexivity.
  - specialize (IH H). destruct (advance new_url k). exact IH.
  - specialize (IH (new_url b) (H (new_url b))).
    destruct (advance new_url (k (new_url b))). exact IH.
  - contradiction.
Qed.

(** A guarded run that suspends again has left [loading] alone, and what
    is left of it is guarded. *)
Lemma guarded_advance {A : Type} (m : Async A) :
  guarded m ->
  is_suspended (snd (advance new_url m)) = true ->
  (forall s, loading (apply_effects s (fst (advance new_url m))) = loading s)
  /\ guarded (snd (advance new_url m)).
Proof.
  induction m as [a|e|ef k IH|b k IH|T p k IH]; simpl; intros G Hs.
  - discriminate.
  - discriminate.
  - destruct G as [Gk Gef].
    pose proof (no_await_advance k) as Hna.
    destruct (advance new_url k) as [t m'] eqn:E. cbn [fst snd] in *.
    destruct (IH Gk Hs) as [Hl Gm]. split; [|exact Gm].
    intros s. rewrite apply_effects_cons, Hl.
    apply loading_apply_effect.
    destruct (is_set_loading ef); [|reflexivity].
    rewrite (Hna (Gef eq_refl)) in Hs. discriminate.
  - specialize (IH (new_url b) (G (new_url b))).
    destruct (advance new_url (k (new_url b))) as [t m'] eqn:E. cbn [fst snd] in *.
    destruct (IH Hs) as [Hl Gm]. split; [|exact Gm].
    intros s. rewrite apply_effects_cons, Hl. reflexivity.
  - split; [|exact G].
    intros s. destruct p; reflexivity.
Qed.

Lemma guarded_resume_fetch {A : Type} (m m' : Async A) (o : Settled Response) :
  guarded m -> resume_fetch m o = Some m' -> guarded m'.
Proof.
  destruct m as [a|e|ef k|b k|T p k]; simpl; try discriminate.
  destruct p; intros G H; [|discriminate].
  injection H as <-. apply G.
Qed.

Lemma guarded_resume_blob {A : Type} (m m' : Async A) :
  guarded m -> resume_blob m = Some m' -> guarded m'.
Proof.
  destruct m as [a|e|ef k|b k|T p k]; simpl; try discriminate.
  destruct p; intros G H; [discriminate|].
  injection H as <-. apply G.
Qed.

Variable API_BASE : option jsstring.

(** The first stretch of an accepted run: the two setters and the
    request; what is left is guarded. *)
Lemma advance_generate_accepted (u : jsstring) (g : bool) :
  truthy (trim u) = true ->
  exists k,
    advance new_url (generate API_BASE u g) =
      ([SetLoading true; SetError []; FetchCall (generate_request API_BASE u g)],
       Await (fetch (generate_request API_BASE u g)) k)
    /\ forall o, guarded (k o).
Proof.
  intros H. unfold generate. rewrite H. simpl.
  eexists. split; [reflexivity|].
  intros [res|e]; simpl.
  - destruct (ok res); simpl.
    + intros [b|e]; simpl; intuition.
    + intuition.
  - intuition.
Qed.

Lemma advance_generate_rejected (u : jsstring) (g : bool) :
  truthy (trim u) = false ->
  advance new_url (generate API_BASE u g) =
    ([SetError paste_url_message], Return tt).
Proof.
  intros H. rewrite (generate_rejected API_BASE u g H). reflexivity.
Qed.

(** One run resumed in a component that holds only that run. *)
Lemma schedule_guarded (c : Component) (m : Async unit) :
  loading (cells c) = true ->
  guarded m ->
  one_in_flight (schedule new_url c [] [] m).
Proof.
  intros Hl G. unfold schedule.
  pose proof (guarded_advance m G) as H.
  destruct (advance new_url m) as [t m'] eqn:E. simpl in H.
  unfold one_in_flight. simpl.
  destruct (is_suspended m') eqn:Es; simpl; [|exact I].
  destruct (H eq_refl) as [Hkeep Gm].
  rewrite Hkeep. auto.
Qed.

Lemma one_in_flight_step (c : Component) (ev : event) :
  one_in_flight c -> one_in_flight (step API_BASE new_url c ev).
Proof.
  intros Inv. destruct ev as [v| | |i o|i]; unfold step.
  - unfold schedule, one_in_flight in *. simpl.
    rewrite !app_nil_r. exact Inv.
  - unfold schedule, one_in_flight in *. simpl.
    rewrite !app_nil_r. exact Inv.
  - simpl. destruct (loading (cells c)) eqn:Hl; [exact Inv|].
    assert (Hnone : inflight c = []).
    { unfold one_in_flight in Inv.
      destruct (inflight c) as [|m [|m2 rest]]; [reflexivity| |contradiction].
      destruct Inv as [Hload _]. congruence. }
    rewrite Hnone. unfold schedule.
    destruct (truthy (trim (jdUrl (cells c)))) eqn:Ht.
    + destruct (advance_generate_accepted (jdUrl (cells c)) (greyHat (cells c)) Ht)
        as (k & -> & Gk).
      unfold one_in_flight. simpl. auto.
    + rewrite (advance_generate_rejected _ _ Ht).
      unfold one_in_flight. simpl. exact I.
  - unfold one_in_flight in Inv.
    destruct (inflight c) as [|m [|m2 rest]] eqn:Ei; [| |contradiction].
    + destruct i; simpl; unfold one_in_flight; rewrite Ei; exact I.
    + destruct i as [|i]; simpl.
      * pose proof Inv as (Hl & _ & G).
        destruct (resume_fetch m o) as [m'|] eqn:Er.
        -- apply schedule_guarded; [exact Hl|].
           exact (guarded_resume_fetch m m' o G Er).
        -- unfold one_in_flight. rewrite Ei. exact Inv.
      * destruct i; simpl; unfold one_in_flight; rewrite Ei; exact Inv.
  - unfold one_in_flight in Inv.
    destruct (inflight c) as [|m [|m2 rest]] eqn:Ei; [| |contradiction].
    + destruct i; simpl; unfold one_in_flight; rewrite Ei; exact I.
    + destruct i as [|i]; simpl.
      * pose proof Inv as (Hl & _ & G).
        destruct (resume_blob m) as [m'|] eqn:Er.
        -- apply schedule_guarded; [exact Hl|].
           exact (guarded_resume_blob m m' G Er).
        -- unfold one_in_flight. rewrite Ei. exact Inv.
      * destruct i; simpl; unfold one_in_flight; rewrite Ei; exact Inv.
Qed.

Lemma one_in_flight_run (evs : list event) (c : Component) :
  one_in_flight c -> one_in_flight (run API_BASE new_url c evs).
Proof.
  revert c. induction evs as [|ev evs IH]; intros c Inv; simpl; [exact Inv|].
  apply IH. apply one_in_flight_step. exact Inv.
Qed.

End Advance.

(* ===================================================================== *)
(** ** The loading flag *)
(* ===================================================================== *)

Lemma after_fetch_quiet (w : World) (o : Settled Response) :
  forallb (fun ef => negb (is_set_loading ef) && negb (is_fetch ef))
    (after_fetch w o) = true.
Proof.
  destruct o as [res|e]; simpl; [|reflexivity].
  destruct (ok res); simpl; [|reflexivity].
  destruct (body_read res); reflexivity.
Qed.

Lemma one_in_flight_bound (c : Component) :
  one_in_flight c ->
  (List.length (inflight c) <= 1)%nat /\
  (inflight c <> [] -> loading (cells c) = true).
Proof.
  unfold one_in_flight.
  destruct (inflight c) as [|m [|m2 rest]]; simpl.
  - intros _. split; [lia | congruence].
  - intros [Hl _]. split; [lia | intros _; exact Hl].
  - contradiction.
Qed.

(** C8: a run of [generate] that passes the validation begins with
    [setLoading(true)], sends its request after that, and ends with
    [setLoading(false)] however the request settles, with no other write
    to [loading] and no other request in between. The button is disabled
    exactly while [loading] is set, and a click on it then changes nothing.
    So, whatever happens to a mounted component, at most one run is
    suspended, and [loading] is set while there is one. *)
Theorem loading_brackets_the_request
  (API_BASE : option jsstring) (w : World) (new_url : Blob -> jsstring)
  (u : jsstring) (g : bool) (s : State) (evs : list event)
  (Hurl : truthy (trim u) = true) :
  let t := trace w (generate API_BASE u g) in
  (exists mid,
     t = [SetLoading true; SetError [];
          FetchCall (generate_request API_BASE u g)]
         ++ mid ++ [SetLoading false] /\
     forallb (fun ef => negb (is_set_loading ef) && negb (is_fetch ef)) mid
       = true) /\
  loading (apply_effects s t) = false /\
  (forall s', button_disabled (ResumeGenerator s') = loading s') /\
  (forall c, loading (cells c) = true ->
             step API_BASE new_url c ButtonClick = c) /\
  let c := run API_BASE new_url mount evs in
  (List.length (inflight c) <= 1)%nat /\
  (inflight c <> [] -> loading (cells c) = true).
Proof.
  cbv zeta. rewrite (trace_accepted API_BASE w u g Hurl).
  split.
  { eexists. split; [reflexivity | apply after_fetch_quiet]. }
  split.
  { rewrite app_assoc, apply_effects_app. reflexivity. }
  split; [reflexivity|].
  split.
  { intros c Hl. unfold step. simpl. rewrite Hl. reflexivity. }
  apply one_in_flight_bound, one_in_flight_run. exact I.
Qed.

Lemma loading_brackets_the_request_witness :
  loading (apply_effects initial_state
             (trace (world_answering (Fulfilled cut_response))
                (generate sample_base sample_url true))) = false /\
  (List.length
     (inflight
        (run sample_base (fun _ => lit "blob:1") mount
           [InputChange sample_url; ButtonClick; ButtonClick;
            FetchSettles 0 (Fulfilled ok_response); ButtonClick])) <= 1)%nat.
Proof.
  pose proof (loading_brackets_the_request sample_base
                (world_answering (Fulfilled cut_response))
                (fun _ => lit "blob:1") sample_url true initial_state
                [InputChange sample_url; ButtonClick; ButtonClick;
                 FetchSettles 0 (Fulfilled ok_response); ButtonClick]
                eq_refl) as H.
  cbv zeta in H. destruct H as (_ & H1 & _ & _ & H2 & _).
  split; [exact H1 | exact H2].
Defined.

(* ===================================================================== *)
(** ** The checkbox *)
(* ===================================================================== *)

Lemma skipn_length_app {A : Type} (l t : list A) :
  skipn (List.length l) (l ++ t) = t.
Proof.
  induction l as [|x l IH]; simpl; [reflexivity | exact IH].
Qed.

Section Toggle.

Variable API_BASE : option jsstring.
Variable new_url : Blob -> jsstring.

Lemma step_checkbox (c : Component) :
  step API_BASE new_url c CheckboxChange =
    {| cells := apply_effect (cells c) (SetGreyHat (negb (greyHat (cells c))));
       inflight := inflight c;
       log := log c ++ [SetGreyHat (negb (greyHat (cells c)))] |}.
Proof.
  unfold step, schedule. simpl. rewrite !app_nil_r. reflexivity.
Qed.

Lemma run_cons (c : Component) (ev : event) (evs : list event) :
  run API_BASE new_url c (ev :: evs) =
    run API_BASE new_url (step API_BASE new_url c ev) evs.
Proof. reflexivity. Qed.

Lemma greyHat_after_toggles (n : nat) (c : Component) :
  greyHat (cells (run API_BASE new_url c (repeat CheckboxChange n))) =
    if Nat.even n then greyHat (cells c) else negb (greyHat (cells c)).
Proof.
  revert c. induction n as [n IH] using (well_founded_induction lt_wf).
  intros c. destruct n as [|[|n]]; [reflexivity | reflexivity |].
  change (repeat CheckboxChange (S (S n)))
    with (CheckboxChange :: CheckboxChange :: repeat CheckboxChange n).
  rewrite !run_cons. rewrite IH by lia. rewrite !step_checkbox. simpl.
  rewrite negb_involutive. reflexivity.
Qed.

(** The requests a click on the button sends. *)
Lemma click_fetches (c : Component) :
  fetches (emitted c (step API_BASE new_url c ButtonClick)) =
    if button_disabled (ResumeGenerator (cells c))
       || negb (truthy (trim (jdUrl (cells c))))
    then []
    else [generate_request API_BASE (jdUrl (cells c)) (greyHat (cells c))].
Proof.
  unfold emitted, step. simpl.
  destruct (loading (cells c)); simpl.
  { rewrite <- (app_nil_r (log c)) at 2. rewrite skipn_length_app. reflexivity. }
  unfold schedule.
  destruct (truthy (trim (jdUrl (cells c)))) eqn:Ht; simpl.
  - destruct (advance_generate_accepted new_url API_BASE
                (jdUrl (cells c)) (greyHat (cells c)) Ht) as (k & -> & _).
    simpl. rewrite skipn_length_app. reflexivity.
  - rewrite (advance_generate_rejected new_url API_BASE _ _ Ht).
    simpl. rewrite skipn_length_app. reflexivity.
Qed.

End Toggle.

(** C7: a click on the checkbox stores the negation of [greyHat] and
    nothing else, so after [n] clicks the cell holds the start value
    negated [n] times; a click on the button then sends (when the button
    is enabled and [jdUrl] is not blank) one request, whose body is the
    serialization of the object with [grey_hat] equal to the cell at that
    moment, and parsing the body gives back that value. *)
Theorem toggle_state_is_the_flag_sent
  (API_BASE : option jsstring) (new_url : Blob -> jsstring)
  (c : Component) (n : nat) :
  let c' := run API_BASE new_url c (repeat CheckboxChange n) in
  let req :=
    {| url := template_subst API_BASE ++ lit "/generate-resume-from-url";
       method := lit "POST";
       headers := [ (lit "Content-Type", lit "application/json") ];
       body := JSON.stringify
                 [ (lit "jd_url", JSON.VString (jdUrl (cells c')));
                   (lit "grey_hat", JSON.VBoolean (greyHat (cells c'))) ] |} in
  cells (step API_BASE new_url c CheckboxChange) =
    {| jdUrl := jdUrl (cells c); greyHat := negb (greyHat (cells c));
       loading := loading (cells c); error := error (cells c) |} /\
  greyHat (cells c') =
    (if Nat.even n then greyHat (cells c) else negb (greyHat (cells c))) /\
  fetches (emitted c' (step API_BASE new_url c' ButtonClick)) =
    (if button_disabled (ResumeGenerator (cells c'))
        || negb (truthy (trim (jdUrl (cells c'))))
     then []
     else [req]) /\
  JSON.parse (body req) =
    Some [ (lit "jd_url", JSON.VString (jdUrl (cells c')));
           (lit "grey_hat", JSON.VBoolean (greyHat (cells c'))) ].
Proof.
  cbv zeta. split; [rewrite step_checkbox; reflexivity|].
  split; [apply greyHat_after_toggles|].
  split; [apply click_fetches|].
  apply JSONFacts.parse_stringify.
Qed.

(* ===================================================================== *)
(** ** The default of the flag *)
(* ===================================================================== *)

Lemma Forall_firstn_of {A : Type} (P : A -> Prop) (n : nat) (l : list A) :
  Forall P l -> Forall P (firstn n l).
Proof.
  intros H. revert n. induction H as [|x l Hx Hl IH]; intros [|n]; simpl; auto.
Qed.

Lemma Forall_skipn_of {A : Type} (P : A -> Prop) (n : nat) (l : list A) :
  Forall P l -> Forall P (skipn n l).
Proof.
  intros H. revert n. induction H as [|x l Hx Hl IH]; intros [|n]; simpl; auto.
Qed.

Lemma Forall_nth_error {A : Type} (P : A -> Prop) (l : list A) (i : nat) (x : A) :
  Forall P l -> nth_error l i = Some x -> P x.
Proof.
  intros H E. apply nth_error_In in E.
  rewrite Forall_forall in H. exact (H x E).
Qed.

Section Default.

Variable API_BASE : option jsstring.
Variable new_url : Blob -> jsstring.

Lemma calm_advance {A : Type} (m : Async A) :
  calm API_BASE m ->
  Forall (expanding API_BASE) (fst (advance new_url m)) /\
  calm API_BASE (snd (advance new_url m)).
Proof.
  induction m as [a|e|ef k IH|b k IH|T p k IH]; simpl; intros C.
  - split; [constructor | exact I].
  - split; [constructor | exact I].
  - destruct C as [Hef Ck]. specialize (IH Ck).
    destruct (advance new_url k) as [t m']. simpl in *.
    destruct IH as [Ht Cm]. split; [constructor; assumption | exact Cm].
  - specialize (IH (new_url b) (C (new_url b))).
    destruct (advance new_url (k (new_url b))) as [t m']. simpl in *.
    destruct IH as [Ht Cm]. split; [constructor; [exact I | exact Ht] | exact Cm].
  - destruct C as [Hp Ck]. split; [|split; assumption].
    constructor; [exact Hp | constructor].
Qed.

Lemma greyHat_apply_effects (t : list effect) (s : State) :
  Forall (expanding API_BASE) t -> greyHat (apply_effects s t) = greyHat s.
Proof.
  intros H. revert s. induction H as [|ef t Hef Ht IH]; intros s; [reflexivity|].
  rewrite apply_effects_cons, IH.
  destruct ef; simpl in *; try reflexivity; contradiction.
Qed.

Lemma calm_resume_fetch {A : Type} (m m' : Async A) (o : Settled Response) :
  calm API_BASE m -> resume_fetch m o = Some m' -> calm API_BASE m'.
Proof.
  destruct m as [a|e|ef k|b k|T p k]; simpl; try discriminate.
  destruct p; intros [_ C] H; [|discriminate].
  injection H as <-. apply C.
Qed.

Lemma calm_resume_blob {A : Type} (m m' : Async A) :
  calm API_BASE m -> resume_blob m = Some m' -> calm API_BASE m'.
Proof.
  destruct m as [a|e|ef k|b k|T p k]; simpl; try discriminate.
  destruct p; intros [_ C] H; [discriminate|].
  injection H as <-. apply C.
Qed.

(** With the flag set, every request of a run of [generate] carries
    [grey_hat = true], and the run never writes [greyHat]. *)
Lemma calm_generate (u : jsstring) : calm API_BASE (generate API_BASE u true).
Proof.
  unfold generate. destruct (truthy (trim u)); simpl; [|auto].
  split; [exact I|]. split; [exact I|].
  split; [exists u; reflexivity|].
  intros [res|e]; simpl; [|auto].
  destruct (ok res); simpl; [|auto].
  split; [exact I|].
  intros [b|e]; simpl; intuition.
Qed.

Lemma untouched_schedule (c : Component) (before after : list (Async unit))
  (m : Async unit) :
  greyHat (cells c) = true ->
  Forall (expanding API_BASE) (log c) ->
  Forall (calm API_BASE) before ->
  Forall (calm API_BASE) after ->
  calm API_BASE m ->
  untouched API_BASE (schedule new_url c before after m).
Proof.
  intros Hg Hlog Hb Ha Cm. unfold schedule.
  destruct (calm_advance m Cm) as [Ht Cm'].
  destruct (advance new_url m) as [t m']. simpl in *.
  unfold untouched. simpl.
  split; [rewrite (greyHat_apply_effects t _ Ht); exact Hg|].
  split; [apply Forall_app; split; assumption|].
  apply Forall_app. split; [exact Hb|].
  apply Forall_app. split; [|exact Ha].
  destruct (is_suspended m'); [constructor; [exact Cm' | constructor] | constructor].
Qed.

Lemma untouched_step (c : Component) (ev : event) :
  is_checkbox_change ev = false ->
  untouched API_BASE c -> untouched API_BASE (step API_BASE new_url c ev).
Proof.
  intros Hev Inv. pose proof Inv as (Hg & Hlog & Hfl).
  destruct ev as [v| | |i o|i]; unfold step.
  - apply untouched_schedule; auto. simpl. auto.
  - discriminate.
  - simpl. destruct (loading (cells c)); [exact Inv|].
    apply untouched_schedule; auto.
    rewrite Hg. apply calm_generate.
  - destruct (nth_error (inflight c) i) as [m|] eqn:En; [|exact Inv].
    destruct (resume_fetch m o) as [m'|] eqn:Er; [|exact Inv].
    apply untouched_schedule; auto.
    + apply Forall_firstn_of. exact Hfl.
    + apply Forall_skipn_of. exact Hfl.
    + apply (calm_resume_fetch m m' o); [|exact Er].
      exact (Forall_nth_error _ _ _ _ Hfl En).
  - destruct (nth_error (inflight c) i) as [m|] eqn:En; [|exact Inv].
    destruct (resume_blob m) as [m'|] eqn:Er; [|exact Inv].
    apply untouched_schedule; auto.
    + apply Forall_firstn_of. exact Hfl.
    + apply Forall_skipn_of. exact Hfl.
    + apply (calm_resume_blob m m'); [|exact Er].
      exact (Forall_nth_error _ _ _ _ Hfl En).
Qed.

Lemma untouched_run (evs : list event) (c : Component) :
  forallb (fun ev => negb (is_checkbox_change ev)) evs = true ->
  untouched API_BASE c -> untouched API_BASE (run API_BASE new_url c evs).
Proof.
  revert c. induction evs as [|ev evs IH]; intros c Hevs Inv; [exact Inv|].
  simpl in Hevs. apply andb_true_iff in Hevs as [Hev Hevs].
  apply negb_true_iff in Hev.
  rewrite run_cons. apply IH; [exact Hevs|].
  apply untouched_step; assumption.
Qed.

Lemma In_fetches (t : list effect) (req : Request) :
  In req (fetches t) -> In (FetchCall req) t.
Proof.
  induction t as [|ef t IH]; simpl; [auto|].
  destruct ef; simpl; auto.
  intros [-> | H]; auto.
Qed.

End Default.

(** C9: the flag starts as [true] and the checkbox is rendered checked;
    as long as no event is a click on the checkbox, the cell stays [true]
    and every request the component sends is the request of [generate]
    with [grey_hat = true]. *)
Theorem grey_hat_defaults_to_true
  (API_BASE : option jsstring) (new_url : Blob -> jsstring)
  (evs : list event) (req : Request)
  (Hevs : forallb (fun ev => negb (is_checkbox_change ev)) evs = true)
  (Hreq : In req (fetches (log (run API_BASE new_url mount evs)))) :
  greyHat initial_state = true /\
  checkbox_checked (ResumeGenerator (cells mount)) = true /\
  greyHat (cells (run API_BASE new_url mount evs)) = true /\
  exists u,
    req = generate_request API_BASE u true /\
    JSON.parse (body req) =
      Some [ (lit "jd_url", JSON.VString u);
             (lit "grey_hat", JSON.VBoolean true) ].
Proof.
  split; [reflexivity|]. split; [reflexivity|].
  assert (Inv : untouched API_BASE (run API_BASE new_url mount evs)).
  { apply untouched_run; [exact Hevs|].
    unfold untouched. simpl. repeat split; constructor. }
  destruct Inv as (Hg & Hlog & _). split; [exact Hg|].
  apply In_fetches in Hreq. rewrite Forall_forall in Hlog.
  destruct (Hlog _ Hreq) as [u ->]. exists u.
  split; [reflexivity | apply JSONFacts.parse_stringify].
Qed.

Lemma grey_hat_defaults_to_true_witness :
  exists u,
    generate_request sample_base sample_url true =
      generate_request sample_base u true /\
    JSON.parse (body (generate_request sample_base sample_url true)) =
      Some [ (lit "jd_url", JSON.VString u);
             (lit "grey_hat", JSON.VBoolean true) ].
Proof.
  exact (proj2 (proj2 (proj2
    (grey_hat_defaults_to_true sample_base (fun _ => lit "blob:1")
       [InputChange sample_url; ButtonClick;
        FetchSettles 0 (Fulfilled ok_response); BlobSettles 0]
       (generate_request sample_base sample_url true)
       eq_refl (or_introl eq_refl))))).
Defined.

(* ===================================================================== *)
(** ** The two readings of a run agree *)
(* ===================================================================== *)

(** From an idle component with nothing suspended, a click followed by the
    settling of the two promises logs exactly the complete run of
    [generate] in the world that settles the request the same way. *)
Lemma run_click_is_trace
  (API_BASE : option jsstring) (new_url : Blob -> jsstring)
  (c : Component) (o : Settled Response) :
  loading (cells c) = false ->
  inflight c = [] ->
  let w := {| fetch_outcome := fun _ => o; object_url := new_url |} in
  let t := trace w (generate API_BASE (jdUrl (cells c)) (greyHat (cells c))) in
  let c' := run API_BASE new_url c [ButtonClick; FetchSettles 0 o; BlobSettles 0] in
  log c' = log c ++ t /\
  cells c' = apply_effects (cells c) t /\
  inflight c' = [].
Proof.
  destruct c as [s fl lg]. simpl. intros Hl ->.
  unfold trace, step, schedule, generate. simpl. rewrite Hl.
  destruct (truthy (trim (jdUrl s))); simpl.
  - destruct o as [res|e]; simpl.
    + destruct (ok res); simpl.
      * destruct (body_read res) as [b|e]; simpl;
          rewrite <- !app_assoc; simpl; auto.
      * rewrite <- !app_assoc; simpl; auto.
    + rewrite <- !app_assoc; simpl; auto.
  - auto.
Qed.

(* ===================================================================== *)
(** ** More on single runs *)
(* ===================================================================== *)

Lemma truthy_trim (u : jsstring) :
  truthy (trim u) = negb (all_white_space u).
Proof.
  destruct (all_white_space u) eqn:E.
  - apply truthy_trim_false_iff. exact E.
  - destruct (truthy (trim u)) eqn:T; [reflexivity|].
    apply truthy_trim_false_iff in T. congruence.
Qed.

(** The validation is exactly a test for a character that is not white
    space: a run sends its one request if [jdUrl] has such a character, and
    sends nothing otherwise, however the world answers. *)
Theorem request_sent_iff_not_blank
  (API_BASE : option jsstring) (w : World) (u : jsstring) (g : bool) :
  fetches (trace w (generate API_BASE u g)) =
    if all_white_space u then [] else [generate_request API_BASE u g].
Proof.
  pose proof (truthy_trim u) as T.
  destruct (all_white_space u); simpl in T.
  - rewrite (trace_rejected API_BASE w u g T). reflexivity.
  - rewrite (trace_accepted API_BASE w u g T).
    rewrite !fetches_app, fetches_after_fetch. reflexivity.
Qed.

(** The promise that [generate] returns is always fulfilled: every error
    of the request or of the body is caught, and neither the handler nor
    the [finally] clause throws. *)
Theorem generate_never_rejects
  (API_BASE : option jsstring) (w : World) (u : jsstring) (g : bool) :
  snd (exec w (generate API_BASE u g)) = Fulfilled tt.
Proof.
  unfold generate. destruct (truthy (trim u)); simpl; [|reflexivity].
  destruct (fetch_outcome w (generate_request API_BASE u g)) as [res|e];
    simpl; [|reflexivity].
  destruct (ok res); simpl; [|reflexivity].
  destruct (body_read res) as [b|e]; reflexivity.
Qed.

Lemma downloads_after_fetch (w : World) (o : Settled Response) :
  downloads (after_fetch w o) =
    match o with
    | Fulfilled res =>
        if ok res then
          match body_read res with
          | Fulfilled b => [(lit "ATS_Resume.pdf", object_url w b)]
          | Rejected _ => []
          end
        else []
    | Rejected _ => []
    end.
Proof.
  destruct o as [res|e]; simpl; [|reflexivity].
  destruct (ok res); simpl; [|reflexivity].
  destruct (body_read res); reflexivity.
Qed.

Lemma error_after_accepted (w : World) (req : Request) (s : State) :
  error (apply_effects s
           ([SetLoading true; SetError []; FetchCall req]
            ++ after_fetch w (fetch_outcome w req) ++ [SetLoading false])) =
    failure_message (fetch_outcome w req).
Proof.
  destruct (fetch_outcome w req) as [res|e]; simpl; [|reflexivity].
  destruct (ok res); simpl; [|reflexivity].
  destruct (body_read res); reflexivity.
Qed.

(** A run that passed the validation ends in exactly one of two ways: the
    toast is empty and one file has been saved as [ATS_Resume.pdf], or
    the toast shows a non-empty text and nothing has been saved. *)
Theorem accepted_run_saves_or_reports
  (API_BASE : option jsstring) (w : World) (u : jsstring) (g : bool) (s : State)
  (Hurl : truthy (trim u) = true) :
  let t := trace w (generate API_BASE u g) in
  match toast (ResumeGenerator (apply_effects s t)) with
  | None => exists href, downloads t = [(lit "ATS_Resume.pdf", href)]
  | Some msg => downloads t = [] /\ truthy msg = true
  end.
Proof.
  cbv zeta. rewrite (trace_accepted API_BASE w u g Hurl).
  unfold ResumeGenerator. cbn [toast]. rewrite error_after_accepted.
  rewrite !downloads_app, downloads_after_fetch. simpl.
  destruct (fetch_outcome w (generate_request API_BASE u g)) as [res|e]; simpl.
  - destruct (ok res); simpl.
    + destruct (body_read res) as [b|e]; simpl.
      * eexists. reflexivity.
      * rewrite truthy_caught_message. split; [reflexivity|].
        apply truthy_caught_message.
    + split; reflexivity.
  - rewrite truthy_caught_message. split; [reflexivity|].
    apply truthy_caught_message.
Qed.

Lemma accepted_run_saves_or_reports_witness :
  exists href,
    downloads (trace (world_answering (Fulfilled ok_response))
                 (generate sample_base sample_url true)) =
      [(lit "ATS_Resume.pdf", href)].
Proof.
  exact (accepted_run_saves_or_reports sample_base
           (world_answering (Fulfilled ok_response)) sample_url true
           initial_state eq_refl).
Defined.

(** When the request or the reading of the body rejects with the error
    [e], the toast shows the message of [e], and the text
    [Something went wrong] when that message is empty. *)
Theorem caught_error_is_shown
  (API_BASE : option jsstring) (w : World) (u : jsstring) (g : bool) (s : State)
  (e : JsError)
  (Hurl : truthy (trim u) = true)
  (Hcaught :
     fetch_outcome w (generate_request API_BASE u g) = Rejected e \/
     exists res,
       fetch_outcome w (generate_request API_BASE u g) = Fulfilled res /\
       ok res = true /\ body_read res = Rejected e) :
  toast (ResumeGenerator
           (apply_effects s (trace w (generate API_BASE u g)))) =
    Some (match message e with
          | [] => lit "Something went wrong"
          | _ :: _ => message e
          end).
Proof.
  rewrite (trace_accepted API_BASE w u g Hurl).
  unfold ResumeGenerator. cbn [toast]. rewrite error_after_accepted.
  assert (Hmsg : failure_message (fetch_outcome w (generate_request API_BASE u g))
                 = caught_message e).
  { destruct Hcaught as [-> | (res & -> & Hok & Hb)]; simpl; [reflexivity|].
    rewrite Hok, Hb. reflexivity. }
  rewrite Hmsg, truthy_caught_message.
  unfold caught_message, or_else. destruct (message e); reflexivity.
Qed.

Lemma caught_error_is_shown_witness :
  toast (ResumeGenerator
           (apply_effects initial_state
              (trace (world_answering (Rejected (Error [])))
                 (generate sample_base sample_url true)))) =
    Some (lit "Something went wrong").
Proof.
  exact (caught_error_is_shown sample_base
           (world_answering (Rejected (Error []))) sample_url true
           initial_state (Error []) eq_refl (or_introl eq_refl)).
Defined.

Lemma stringify_injective (o o' : JSON.object) :
  JSON.stringify o = JSON.stringify o' -> o = o'.
Proof.
  intros H. apply (f_equal JSON.parse) in H.
  rewrite !JSONFacts.parse_stringify in H. congruence.
Qed.

(** Two runs send the same request only if the same URL and the same flag
    went in: the body keeps both apart, whatever characters the URL has. *)
Theorem same_request_same_inputs
  (API_BASE : option jsstring) (w w' : World) (u u' : jsstring) (g g' : bool)
  (Hurl : truthy (trim u) = true)
  (Hsame : fetches (trace w (generate API_BASE u g)) =
           fetches (trace w' (generate API_BASE u' g'))) :
  u = u' /\ g = g'.
Proof.
  rewrite !request_sent_iff_not_blank in Hsame.
  rewrite truthy_trim in Hurl. apply negb_true_iff in Hurl. rewrite Hurl in Hsame.
  destruct (all_white_space u'); [discriminate|].
  apply (f_equal (fun l => match l with r :: _ => body r | [] => [] end))
    in Hsame.
  unfold generate_request in Hsame. cbn [body] in Hsame.
  apply stringify_injective in Hsame. unfold payload in Hsame.
  injection Hsame as -> ->. split; reflexivity.
Qed.

Lemma same_request_same_inputs_witness :
  sample_url = sample_url /\ false = false.
Proof.
  exact (same_request_same_inputs sample_base
           (world_answering (Fulfilled ok_response))
           (world_answering (Fulfilled cut_response))
           sample_url sample_url false false eq_refl eq_refl).
Defined.

(* ===================================================================== *)
(** ** Resuming and advancing, in general *)
(* ===================================================================== *)

Lemma resumes_resume_fetch {A : Type} (Q : Async A -> Prop)
  (m m' : Async A) (o : Settled Response) :
  resumes Q m -> resume_fetch m o = Some m' -> Q m'.
Proof.
  destruct m as [a|e|ef k|b k|T p k]; simpl; try discriminate.
  destruct p; intros H E; [|discriminate].
  injection E as <-. apply H.
Qed.

Lemma resumes_resume_blob {A : Type} (Q : Async A -> Prop) (m m' : Async A) :
  resumes Q m -> resume_blob m = Some m' -> Q m'.
Proof.
  destruct m as [a|e|ef k|b k|T p k]; simpl; try discriminate.
  destruct p; intros H E; [discriminate|].
  injection E as <-. apply H.
Qed.

Lemma always_resumes {A : Type} (P : effect -> Prop) (m : Async A) :
  always P m -> resumes (always P) m.
Proof.
  destruct m; simpl; auto. intros [_ H]. exact H.
Qed.

Section AdvanceFacts.

Variable new_url : Blob -> jsstring.

(** What [advance] leaves has returned, thrown or is at an await. *)
Lemma advance_head {A : Type} (m : Async A) :
  match snd (advance new_url m) with
  | Perform _ _ | NewObjectURL _ _ => False
  | _ => True
  end.
Proof.
  induction m as [a|e|ef k IH|b k IH|T p k IH]; simpl; auto.
  - destruct (advance new_url k). exact IH.
  - specialize (IH (new_url b)). destruct (advance new_url (k (new_url b))).
    exact IH.
Qed.

Lemma always_advance {A : Type} (P : effect -> Prop) (m : Async A) :
  always P m ->
  Forall P (fst (advance new_url m)) /\ always P (snd (advance new_url m)).
Proof.
  induction m as [a|e|ef k IH|b k IH|T p k IH]; simpl; intros H.
  - split; [constructor | exact I].
  - split; [constructor | exact I].
  - destruct H as [Hef Hk]. specialize (IH Hk).
    destruct (advance new_url k) as [t m']. simpl in *.
    destruct IH. split; [constructor|]; assumption.
  - destruct (H (new_url b)) as [Hc Hk]. specialize (IH (new_url b) Hk).
    destruct (advance new_url (k (new_url b))) as [t m']. simpl in *.
    destruct IH. split; [constructor|]; assumption.
  - destruct H as [Hp Hk]. split; [|split; assumption].
    constructor; [exact Hp | constructor].
Qed.

Lemma stretches_advance {A : Type} (Q : list effect -> Prop) (m : Async A)
  (acc : list effect) :
  stretches Q acc m ->
  Q (acc ++ fst (advance new_url m)) /\
  resumes (stretches Q []) (snd (advance new_url m)).
Proof.
  revert acc. induction m as [a|e|ef k IH|b k IH|T p k IH]; simpl; intros acc H.
  - rewrite app_nil_r. split; [exact H | exact I].
  - rewrite app_nil_r. split; [exact H | exact I].
  - specialize (IH _ H). destruct (advance new_url k) as [t m']. simpl in *.
    rewrite <- app_assoc in IH. exact IH.
  - specialize (IH (new_url b) _ (H (new_url b))).
    destruct (advance new_url (k (new_url b))) as [t m']. simpl in *.
    rewrite <- app_assoc in IH. exact IH.
  - exact H.
Qed.

Lemma ends_idle_advance {A : Type} (m : Async A) (s : State) :
  ends_idle (loading s) m ->
  ends_idle (loading (apply_effects s (fst (advance new_url m))))
    (snd (advance new_url m)).
Proof.
  revert s. induction m as [a|e|ef k IH|b k IH|T p k IH]; simpl; intros s H.
  - exact H.
  - exact H.
  - specialize (IH (apply_effect s ef)).
    destruct (advance new_url k) as [t m']. simpl in *.
    apply IH. destruct ef; exact H.
  - specialize (IH (new_url b) s (H (new_url b))).
    destruct (advance new_url (k (new_url b))) as [t m']. simpl in *.
    exact IH.
  - destruct p; exact H.
Qed.

Lemma budget_advance {A : Type} (m : Async A) (n : nat) :
  budget n m ->
  fetches (fst (advance new_url m)) = [] /\
  exists n',
    (List.length (downloads (fst (advance new_url m))) + n' <= n)%nat /\
    budget n' (snd (advance new_url m)).
Proof.
  revert n. induction m as [a|e|ef k IH|b k IH|T p k IH]; simpl; intros n H.
  - split; [reflexivity|]. exists n. split; [lia | exact I].
  - split; [reflexivity|]. exists n. split; [lia | exact I].
  - pose proof IH as IH'.
    destruct (advance new_url k) as [t m'] eqn:E. simpl in *.
    destruct ef; try contradiction;
      try (destruct (IH' n H) as (Hf & n' & Hn & Hb);
           split; [exact Hf|]; exists n'; split; [exact Hn | exact Hb]).
    simpl. destruct (download el) as [name|].
    + destruct n as [|n0]; [contradiction|].
      destruct (IH' n0 H) as (Hf & n' & Hn & Hb).
      split; [exact Hf|]. exists n'. simpl. split; [lia | exact Hb].
    + destruct (IH' n H) as (Hf & n' & Hn & Hb).
      split; [exact Hf|]. exists n'. split; [exact Hn | exact Hb].
  - specialize (IH (new_url b) n (H (new_url b))).
    destruct (advance new_url (k (new_url b))) as [t m']. simpl in *.
    exact IH.
  - destruct H as [Hp Hk]. split.
    + destruct p; [discriminate | reflexivity].
    + exists n. split; [destruct p; simpl; lia|]. split; assumption.
Qed.

End AdvanceFacts.

(* ===================================================================== *)
(** ** What [generate] keeps to, on every path *)
(* ===================================================================== *)

Section GenerateFacts.

Variable API_BASE : option jsstring.
Variable new_url : Blob -> jsstring.

Lemma generate_leaves_inputs (u : jsstring) (g : bool) :
  always leaves_inputs (generate API_BASE u g).
Proof.
  clear new_url.
  unfold generate. destruct (truthy (trim u)); simpl; [|auto].
  repeat split.
  intros [res|e]; simpl; [|auto].
  destruct (ok res); simpl; [|auto].
  split; [exact I|]. intros [b|e]; simpl; [|auto].
  intros url. simpl. intuition.
Qed.

Lemma generate_saves_as_pdf (u : jsstring) (g : bool) :
  always saves_as_pdf (generate API_BASE u g).
Proof.
  clear new_url.
  unfold generate. destruct (truthy (trim u)); simpl; [|auto].
  repeat split.
  intros [res|e]; simpl; [|auto].
  destruct (ok res); simpl; [|auto].
  split; [exact I|]. intros [b|e]; simpl; [|auto].
  intros url. simpl. intuition.
Qed.

Lemma generate_tidy (u : jsstring) (g : bool) :
  stretches tidy [] (generate API_BASE u g).
Proof.
  clear new_url.
  unfold generate. destruct (truthy (trim u)); simpl; [|split; reflexivity].
  split; [split; reflexivity|].
  intros [res|e]; simpl; [|split; reflexivity].
  destruct (ok res); simpl; [|split; reflexivity].
  split; [split; reflexivity|].
  intros [b|e]; simpl; [|split; reflexivity].
  intros url. split; reflexivity.
Qed.

Lemma generate_ends_idle (u : jsstring) (g : bool) :
  ends_idle false (generate API_BASE u g).
Proof.
  clear new_url.
  unfold generate. destruct (truthy (trim u)); simpl; [|reflexivity].
  intros [res|e]; simpl; [|reflexivity].
  destruct (ok res); simpl; [|reflexivity].
  intros [b|e]; simpl; reflexivity.
Qed.

(** The first stretch of an accepted run, with more on what is left. *)
Lemma advance_generate_accepted_budget (u : jsstring) (g : bool) :
  truthy (trim u) = true ->
  exists k,
    advance new_url (generate API_BASE u g) =
      ([SetLoading true; SetError []; FetchCall (generate_request API_BASE u g)],
       Await (fetch (generate_request API_BASE u g)) k)
    /\ forall o, guarded (k o) /\ budget 1 (k o).
Proof.
  intros H. unfold generate. rewrite H. simpl.
  eexists. split; [reflexivity|].
  intros [res|e]; simpl.
  - destruct (ok res); simpl.
    + split; [|split; [reflexivity|]]; intros [b|e]; simpl; intuition.
    + intuition.
  - intuition.
Qed.

(** A step that is not an edit leaves the component alone, starts
    [generate] on an enabled button, or resumes one suspended run. *)
Lemma step_cases (c : Component) (ev : event) :
  is_edit ev = false ->
  step API_BASE new_url c ev = c \/
  (ev = ButtonClick /\ loading (cells c) = false /\
   step API_BASE new_url c ev =
     schedule new_url c (inflight c) []
       (generate API_BASE (jdUrl (cells c)) (greyHat (cells c)))) \/
  (exists i m0 m,
     nth_error (inflight c) i = Some m0 /\
     (forall Q : Async unit -> Prop, resumes Q m0 -> Q m) /\
     step API_BASE new_url c ev =
       schedule new_url c (firstn i (inflight c)) (skipn (S i) (inflight c)) m).
Proof.
  destruct ev as [v| | |i o|i]; simpl; try discriminate; intros _.
  - destruct (loading (cells c)) eqn:Hl; [left; reflexivity|].
    right; left. auto.
  - destruct (nth_error (inflight c) i) as [m0|] eqn:En; [|left; reflexivity].
    destruct (resume_fetch m0 o) as [m|] eqn:Er; [|left; reflexivity].
    right; right. exists i, m0, m. split; [exact En|]. split; [|reflexivity].
    intros Q HQ. exact (resumes_resume_fetch Q m0 m o HQ Er).
  - destruct (nth_error (inflight c) i) as [m0|] eqn:En; [|left; reflexivity].
    destruct (resume_blob m0) as [m|] eqn:Er; [|left; reflexivity].
    right; right. exists i, m0, m. split; [exact En|]. split; [|reflexivity].
    intros Q HQ. exact (resumes_resume_blob Q m0 m HQ Er).
Qed.

Lemma step_input (c : Component) (v : jsstring) :
  step API_BASE new_url c (InputChange v) =
    {| cells := apply_effect (cells c) (SetJdUrl v);
       inflight := inflight c;
       log := log c ++ [SetJdUrl v] |}.
Proof.
  unfold step, schedule. simpl. rewrite !app_nil_r. reflexivity.
Qed.

Lemma schedule_unfold (c : Component) (before after : list (Async unit))
  (m : Async unit) :
  schedule new_url c before after m =
    {| cells := apply_effects (cells c) (fst (advance new_url m));
       inflight :=
         before
         ++ (if is_suspended (snd (advance new_url m))
             then [snd (advance new_url m)] else [])
         ++ after;
       log := log c ++ fst (advance new_url m) |}.
Proof.
  unfold schedule. destruct (advance new_url m). reflexivity.
Qed.

(** With one run suspended, the only index that names a run is 0. *)
Lemma nth_error_single {A : Type} (x y : A) (i : nat) :
  nth_error [x] i = Some y -> i = 0%nat /\ y = x.
Proof.
  destruct i as [|[|i]]; simpl; intros H; try discriminate.
  injection H as <-. auto.
Qed.

Lemma run_app (c : Component) (evs1 evs2 : list event) :
  run API_BASE new_url c (evs1 ++ evs2) =
    run API_BASE new_url (run API_BASE new_url c evs1) evs2.
Proof.
  unfold run. apply fold_left_app.
Qed.

End GenerateFacts.

(* ===================================================================== *)
(** ** The loading flag and the run in flight *)
(* ===================================================================== *)

Section Flight.

Variable API_BASE : option jsstring.
Variable new_url : Blob -> jsstring.

Lemma finished_ends_idle {A : Type} (m : Async A) (l : bool) :
  is_suspended (snd (advance new_url m)) = false ->
  ends_idle l (snd (advance new_url m)) -> l = false.
Proof.
  pose proof (advance_head new_url m) as Hh.
  destruct (snd (advance new_url m)); simpl; intros Hs He;
    try exact He; try contradiction; discriminate.
Qed.

Lemma loading_tracks_flight_step (c : Component) (ev : event) :
  loading_tracks_flight c ->
  loading_tracks_flight (step API_BASE new_url c ev).
Proof.
  intros Inv. destruct (is_edit ev) eqn:Hedit.
  { destruct ev; try discriminate.
    - rewrite step_input. exact Inv.
    - rewrite step_checkbox. exact Inv. }
  destruct (step_cases API_BASE new_url c ev Hedit)
    as [-> | [(_ & Hl & ->) | (i & m0 & m & Hn & Hq & ->)]]; [exact Inv| |].
  - assert (Hnone : inflight c = []).
    { unfold loading_tracks_flight in Inv.
      destruct (inflight c) as [|x [|y l]]; [reflexivity| |contradiction].
      destruct Inv as [Ht _]. congruence. }
    rewrite Hnone. unfold loading_tracks_flight.
    destruct (truthy (trim (jdUrl (cells c)))) eqn:Ht.
    + pose proof (ends_idle_advance new_url
                    (generate API_BASE (jdUrl (cells c)) (greyHat (cells c)))
                    (cells c)) as He.
      rewrite Hl in He. specialize (He (generate_ends_idle API_BASE _ _)).
      rewrite schedule_unfold.
      destruct (advance_generate_accepted_budget API_BASE new_url
                  (jdUrl (cells c)) (greyHat (cells c)) Ht) as (k & E & Hk).
      rewrite E in *. simpl in *. split; [reflexivity|].
      intros o. split; [apply Hk | apply He].
    + unfold schedule. rewrite (advance_generate_rejected new_url API_BASE _ _ Ht).
      simpl. exact Hl.
  - unfold loading_tracks_flight in Inv.
    destruct (inflight c) as [|x [|y l]] eqn:Ei; [destruct i; discriminate| |contradiction].
    apply nth_error_single in Hn as [-> ->].
    destruct Inv as [Hl Hres]. destruct (Hq _ Hres) as [Gm Em].
    rewrite schedule_unfold. simpl firstn. simpl skipn.
    pose proof (guarded_advance new_url m Gm) as Hg.
    pose proof (ends_idle_advance new_url m (cells c)) as He.
    rewrite Hl in He. specialize (He Em).
    unfold loading_tracks_flight. simpl.
    destruct (is_suspended (snd (advance new_url m))) eqn:Es; simpl.
    + destruct (Hg eq_refl) as [Hkeep Gm']. rewrite Hkeep in *.
      split; [exact Hl|].
      destruct (snd (advance new_url m)); try discriminate.
      simpl in *. rewrite Hl in He. intros o. split; [apply Gm' | apply He].
    + exact (finished_ends_idle m _ Es He).
Qed.

Lemma loading_tracks_flight_run (evs : list event) (c : Component) :
  loading_tracks_flight c ->
  loading_tracks_flight (run API_BASE new_url c evs).
Proof.
  revert c. induction evs as [|ev evs IH]; intros c Inv; [exact Inv|].
  rewrite run_cons. apply IH, loading_tracks_flight_step, Inv.
Qed.

End Flight.

(** Whatever happens to a mounted component, the button is disabled (and
    the loader shown) exactly while a run of [generate] is suspended:
    [loading] never stays set after the run in flight has ended, and is
    never reset before. *)
Theorem button_disabled_iff_in_flight
  (API_BASE : option jsstring) (new_url : Blob -> jsstring)
  (evs : list event) :
  let c := run API_BASE new_url mount evs in
  (button_disabled (ResumeGenerator (cells c)) = true <-> inflight c <> []) /\
  (loader_shown (ResumeGenerator (cells c)) = true <-> inflight c <> []) /\
  (List.length (inflight c) <= 1)%nat.
Proof.
  cbv zeta.
  assert (Inv : loading_tracks_flight (run API_BASE new_url mount evs)).
  { apply loading_tracks_flight_run. reflexivity. }
  unfold loading_tracks_flight in Inv. simpl.
  destruct (inflight (run API_BASE new_url mount evs)) as [|x [|y l]];
    [| |contradiction].
  - rewrite Inv. simpl. repeat split; try discriminate; try congruence; lia.
  - destruct Inv as [-> _]. simpl.
    repeat split; try discriminate; try reflexivity; lia.
Qed.

(* ===================================================================== *)
(** ** Requests, downloads and clicks *)
(* ===================================================================== *)

Section Counting.

Variable API_BASE : option jsstring.
Variable new_url : Blob -> jsstring.

Lemma length_fetches_app (t1 t2 : list effect) :
  List.length (fetches (t1 ++ t2)) =
    (List.length (fetches t1) + List.length (fetches t2))%nat.
Proof. rewrite fetches_app. apply length_app. Qed.

Lemma length_downloads_app (t1 t2 : list effect) :
  List.length (downloads (t1 ++ t2)) =
    (List.length (downloads t1) + List.length (downloads t2))%nat.
Proof. rewrite downloads_app. apply length_app. Qed.

(** One step keeps the downloads covered by the requests, and sends at
    most one request, and that only on a click. *)
Lemma downloads_covered_step (c : Component) (ev : event) :
  one_in_flight c ->
  downloads_covered c ->
  downloads_covered (step API_BASE new_url c ev) /\
  (List.length (fetches (log (step API_BASE new_url c ev)))
     <= List.length (fetches (log c))
        + (if is_button_click ev then 1 else 0))%nat.
Proof.
  intros Inv Cov. destruct (is_edit ev) eqn:Hedit.
  { destruct ev; try discriminate.
    - rewrite step_input. unfold downloads_covered in *. simpl.
      rewrite length_fetches_app, length_downloads_app. simpl.
      rewrite !Nat.add_0_r. split; [exact Cov | lia].
    - rewrite step_checkbox. unfold downloads_covered in *. simpl.
      rewrite length_fetches_app, length_downloads_app. simpl.
      rewrite !Nat.add_0_r. split; [exact Cov | lia]. }
  destruct (step_cases API_BASE new_url c ev Hedit)
    as [-> | [(-> & Hl & ->) | (i & m0 & m & Hn & Hq & ->)]].
  - split; [exact Cov | lia].
  - assert (Hnone : inflight c = []).
    { unfold one_in_flight in Inv.
      destruct (inflight c) as [|x [|y l]]; [reflexivity| |contradiction].
      destruct Inv as [Ht _]. congruence. }
    unfold downloads_covered in Cov. rewrite Hnone in *.
    destruct (truthy (trim (jdUrl (cells c)))) eqn:Ht.
    + rewrite schedule_unfold.
      destruct (advance_generate_accepted_budget API_BASE new_url
                  (jdUrl (cells c)) (greyHat (cells c)) Ht) as (k & E & Hk).
      rewrite E. unfold downloads_covered. simpl.
      rewrite length_fetches_app, length_downloads_app. simpl.
      split; [|lia]. exists 1%nat. split; [lia|]. intros o. apply Hk.
    + unfold schedule. rewrite (advance_generate_rejected new_url API_BASE _ _ Ht).
      unfold downloads_covered. simpl.
      rewrite length_fetches_app, length_downloads_app. simpl.
      split; lia.
  - unfold one_in_flight in Inv. unfold downloads_covered in Cov.
    destruct (inflight c) as [|x [|y l]] eqn:Ei;
      [destruct i; discriminate| |contradiction].
    apply nth_error_single in Hn as [-> ->].
    destruct Cov as (b & Hb & Hres).
    destruct (budget_advance new_url m b (Hq _ Hres)) as (Hf & n' & Hn' & Bm').
    rewrite schedule_unfold. simpl firstn. simpl skipn.
    unfold downloads_covered. simpl.
    rewrite length_fetches_app, length_downloads_app, Hf. simpl.
    split; [|destruct ev; simpl; lia].
    destruct (is_suspended (snd (advance new_url m))) eqn:Es; simpl; [|lia].
    exists n'. split; [lia|].
    destruct (snd (advance new_url m)); try discriminate.
    simpl in *. apply Bm'.
Qed.

Lemma downloads_covered_run (evs : list event) (c : Component) :
  one_in_flight c ->
  downloads_covered c ->
  downloads_covered (run API_BASE new_url c evs) /\
  (List.length (fetches (log (run API_BASE new_url c evs)))
     <= List.length (fetches (log c))
        + List.length (filter is_button_click evs))%nat.
Proof.
  revert c. induction evs as [|ev evs IH]; intros c Inv Cov.
  - simpl. split; [exact Cov | lia].
  - rewrite run_cons.
    destruct (downloads_covered_step c ev Inv Cov) as [Cov' Hle].
    destruct (IH _ (one_in_flight_step new_url API_BASE c ev Inv) Cov')
      as [Cov'' Hle'].
    split; [exact Cov''|].
    simpl filter. destruct (is_button_click ev); simpl in *; lia.
Qed.

(** A property of effects that the edits and every path of [generate]
    keep holds of everything a component ever does. *)
Lemma always_step (P : effect -> Prop) (c : Component) (ev : event) :
  (forall v, P (SetJdUrl v)) ->
  (forall b, P (SetGreyHat b)) ->
  (forall u g, always P (generate API_BASE u g)) ->
  Forall P (log c) /\ Forall (always P) (inflight c) ->
  Forall P (log (step API_BASE new_url c ev)) /\
  Forall (always P) (inflight (step API_BASE new_url c ev)).
Proof.
  intros Hin Htg Hgen [Hlog Hfl]. destruct (is_edit ev) eqn:Hedit.
  { destruct ev; try discriminate.
    - rewrite step_input. simpl. split; [|exact Hfl].
      apply Forall_app. split; [exact Hlog | constructor; [apply Hin | constructor]].
    - rewrite step_checkbox. simpl. split; [|exact Hfl].
      apply Forall_app. split; [exact Hlog | constructor; [apply Htg | constructor]]. }
  assert (Hsched : forall before after m,
            always P m -> Forall (always P) before -> Forall (always P) after ->
            Forall P (log (schedule new_url c before after m)) /\
            Forall (always P) (inflight (schedule new_url c before after m))).
  { intros before after m Hm Hb Ha. rewrite schedule_unfold. simpl.
    destruct (always_advance new_url P m Hm) as [Ht Hm'].
    split; [apply Forall_app; split; assumption|].
    apply Forall_app. split; [exact Hb|]. apply Forall_app. split; [|exact Ha].
    destruct (is_suspended (snd (advance new_url m)));
      [constructor; [exact Hm' | constructor] | constructor]. }
  destruct (step_cases API_BASE new_url c ev Hedit)
    as [-> | [(_ & _ & ->) | (i & m0 & m & Hn & Hq & ->)]].
  - split; assumption.
  - apply Hsched; [apply Hgen | exact Hfl | constructor].
  - apply Hsched.
    + apply Hq. apply always_resumes. exact (Forall_nth_error _ _ _ _ Hfl Hn).
    + apply Forall_firstn_of. exact Hfl.
    + apply Forall_skipn_of. exact Hfl.
Qed.

Lemma always_run (P : effect -> Prop) (evs : list event) (c : Component) :
  (forall v, P (SetJdUrl v)) ->
  (forall b, P (SetGreyHat b)) ->
  (forall u g, always P (generate API_BASE u g)) ->
  Forall P (log c) /\ Forall (always P) (inflight c) ->
  Forall P (log (run API_BASE new_url c evs)) /\
  Forall (always P) (inflight (run API_BASE new_url c evs)).
Proof.
  intros Hin Htg Hgen. revert c.
  induction evs as [|ev evs IH]; intros c Inv; [exact Inv|].
  rewrite run_cons. apply IH. apply always_step; assumption.
Qed.

Lemma In_downloads (t : list effect) (name hr : jsstring) :
  In (name, hr) (downloads t) ->
  exists el, In (Click el) t /\ download el = Some name /\ href el = hr.
Proof.
  induction t as [|ef t IH]; simpl; [contradiction|].
  destruct ef; try (intros H; destruct (IH H) as (x & Hx & Hd); eauto).
  destruct (download el) as [n|] eqn:Ed.
  - intros [H|H].
    + injection H as <- <-. exists el. auto.
    + destruct (IH H) as (x & Hx & Hd). eauto.
  - intros H. destruct (IH H) as (x & Hx & Hd). eauto.
Qed.

End Counting.

(** Whatever happens to a mounted component: it has triggered no more
    downloads than it has sent requests, it has sent no more requests than
    the button was clicked, and every download was saved under the name
    [ATS_Resume.pdf]. *)
Theorem downloads_within_requests_within_clicks
  (API_BASE : option jsstring) (new_url : Blob -> jsstring)
  (evs : list event) :
  let c := run API_BASE new_url mount evs in
  (List.length (downloads (log c)) <= List.length (fetches (log c)))%nat /\
  (List.length (fetches (log c))
     <= List.length (filter is_button_click evs))%nat /\
  (forall name hr, In (name, hr) (downloads (log c)) ->
                   name = lit "ATS_Resume.pdf").
Proof.
  cbv zeta.
  destruct (downloads_covered_run API_BASE new_url evs mount)
    as [Cov Hle]; [exact I | unfold downloads_covered; simpl; lia |].
  split; [|split; [simpl in Hle; exact Hle|]].
  - unfold downloads_covered in Cov.
    destruct (inflight (run API_BASE new_url mount evs)) as [|x [|y l]];
      [exact Cov | | contradiction].
    destruct Cov as (b & Hb & _). lia.
  - intros name hr Hin.
    assert (Hlog : Forall saves_as_pdf (log (run API_BASE new_url mount evs))).
    { exact (proj1 (always_run API_BASE new_url saves_as_pdf evs mount
                      (fun _ => I) (fun _ => I)
                      (generate_saves_as_pdf API_BASE)
                      (conj (Forall_nil _) (Forall_nil _)))). }
    apply In_downloads in Hin as (el & Hel & Hd & _).
    rewrite Forall_forall in Hlog. specialize (Hlog _ Hel). simpl in Hlog.
    destruct Hlog as [_ Hname]. congruence.
Qed.

(* ===================================================================== *)
(** ** The document and the object URLs *)
(* ===================================================================== *)

Lemma created_urls_app (t1 t2 : list effect) :
  created_urls (t1 ++ t2) = created_urls t1 ++ created_urls t2.
Proof.
  induction t1 as [|ef t1 IH]; simpl; [reflexivity|].
  destruct ef; simpl; rewrite IH; reflexivity.
Qed.

Lemma revoked_urls_app (t1 t2 : list effect) :
  revoked_urls (t1 ++ t2) = revoked_urls t1 ++ revoked_urls t2.
Proof.
  induction t1 as [|ef t1 IH]; simpl; [reflexivity|].
  destruct ef; simpl; rewrite IH; reflexivity.
Qed.

Lemma appended_app (t1 t2 : list effect) :
  appended (t1 ++ t2) = appended t1 ++ appended t2.
Proof.
  induction t1 as [|ef t1 IH]; simpl; [reflexivity|].
  destruct ef; simpl; rewrite IH; reflexivity.
Qed.

Lemma removed_app (t1 t2 : list effect) :
  removed (t1 ++ t2) = removed t1 ++ removed t2.
Proof.
  induction t1 as [|ef t1 IH]; simpl; [reflexivity|].
  destruct ef; simpl; rewrite IH; reflexivity.
Qed.

Lemma tidy_app (t1 t2 : list effect) :
  tidy t1 -> tidy t2 -> tidy (t1 ++ t2).
Proof.
  unfold tidy. intros [H1 H2] [H3 H4].
  rewrite created_urls_app, revoked_urls_app, appended_app, removed_app.
  split; congruence.
Qed.

Section Tidy.

Variable API_BASE : option jsstring.
Variable new_url : Blob -> jsstring.

Lemma tidy_step (c : Component) (ev : event) :
  tidy (log c) /\ Forall (resumes (stretches tidy [])) (inflight c) ->
  tidy (log (step API_BASE new_url c ev)) /\
  Forall (resumes (stretches tidy [])) (inflight (step API_BASE new_url c ev)).
Proof.
  intros [Hlog Hfl]. destruct (is_edit ev) eqn:Hedit.
  { destruct ev; try discriminate.
    - rewrite step_input. simpl. split; [|exact Hfl].
      apply tidy_app; [exact Hlog | split; reflexivity].
    - rewrite step_checkbox. simpl. split; [|exact Hfl].
      apply tidy_app; [exact Hlog | split; reflexivity]. }
  assert (Hsched : forall before after m,
            stretches tidy [] m ->
            Forall (resumes (stretches tidy [])) before ->
            Forall (resumes (stretches tidy [])) after ->
            tidy (log (schedule new_url c before after m)) /\
            Forall (resumes (stretches tidy []))
              (inflight (schedule new_url c before after m))).
  { intros before after m Hm Hb Ha. rewrite schedule_unfold. simpl.
    destruct (stretches_advance new_url tidy m [] Hm) as [Ht Hm'].
    split; [apply tidy_app; assumption|].
    apply Forall_app. split; [exact Hb|]. apply Forall_app. split; [|exact Ha].
    destruct (is_suspended (snd (advance new_url m)));
      [constructor; [exact Hm' | constructor] | constructor]. }
  destruct (step_cases API_BASE new_url c ev Hedit)
    as [-> | [(_ & _ & ->) | (i & m0 & m & Hn & Hq & ->)]].
  - split; assumption.
  - apply Hsched; [apply generate_tidy | exact Hfl | constructor].
  - apply Hsched.
    + apply Hq. exact (Forall_nth_error _ _ _ _ Hfl Hn).
    + apply Forall_firstn_of. exact Hfl.
    + apply Forall_skipn_of. exact Hfl.
Qed.

Lemma tidy_run (evs : list event) (c : Component) :
  tidy (log c) /\ Forall (resumes (stretches tidy [])) (inflight c) ->
  tidy (log (run API_BASE new_url c evs)) /\
  Forall (resumes (stretches tidy [])) (inflight (run API_BASE new_url c evs)).
Proof.
  revert c. induction evs as [|ev evs IH]; intros c Inv; [exact Inv|].
  rewrite run_cons. apply IH, tidy_step, Inv.
Qed.

End Tidy.

(** The component cleans up after itself. In every run of [generate] the
    object URLs made are the ones revoked and the elements appended to the
    document are the ones removed; since that happens between two
    suspensions, it holds of a mounted component after every event, also
    while a request is in flight. *)
Theorem document_left_as_found
  (API_BASE : option jsstring) (w : World) (new_url : Blob -> jsstring)
  (u : jsstring) (g : bool) (evs : list event) :
  let t := trace w (generate API_BASE u g) in
  let c := run API_BASE new_url mount evs in
  created_urls t = revoked_urls t /\
  appended t = removed t /\
  created_urls (log c) = revoked_urls (log c) /\
  appended (log c) = removed (log c).
Proof.
  cbv zeta.
  assert (Hrun : tidy (trace w (generate API_BASE u g))).
  { destruct (truthy (trim u)) eqn:Ht.
    - rewrite (trace_accepted API_BASE w u g Ht).
      destruct (fetch_outcome w (generate_request API_BASE u g)) as [res|e];
        simpl; [|split; reflexivity].
      destruct (ok res); simpl; [|split; reflexivity].
      destruct (body_read res); split; reflexivity.
    - rewrite (trace_rejected API_BASE w u g Ht). split; reflexivity. }
  destruct (tidy_run API_BASE new_url evs mount) as [Hlog _].
  { split; [split; reflexivity | constructor]. }
  destruct Hrun, Hlog. auto.
Qed.

(* ===================================================================== *)
(** ** The input cells belong to the user *)
(* ===================================================================== *)

Lemma inputs_apply_effects (t : list effect) (s : State) :
  Forall leaves_inputs t ->
  jdUrl (apply_effects s t) = jdUrl s /\
  greyHat (apply_effects s t) = greyHat s.
Proof.
  intros H. revert s. induction H as [|ef t Hef Ht IH]; intros s; [auto|].
  rewrite apply_effects_cons. destruct (IH (apply_effect s ef)) as [-> ->].
  destruct ef; simpl in *; auto; contradiction.
Qed.

Section Inputs.

Variable API_BASE : option jsstring.
Variable new_url : Blob -> jsstring.

Lemma inputs_step (c : Component) (ev : event) :
  Forall (always leaves_inputs) (inflight c) ->
  Forall (always leaves_inputs) (inflight (step API_BASE new_url c ev)) /\
  jdUrl (cells (step API_BASE new_url c ev)) =
    match ev with InputChange v => v | _ => jdUrl (cells c) end /\
  greyHat (cells (step API_BASE new_url c ev)) =
    match ev with
    | CheckboxChange => negb (greyHat (cells c))
    | _ => greyHat (cells c)
    end.
Proof.
  intros Hfl. destruct (is_edit ev) eqn:Hedit.
  { destruct ev; try discriminate.
    - rewrite step_input. simpl. auto.
    - rewrite step_checkbox. simpl. auto. }
  assert (Hsched : forall before after m,
            always leaves_inputs m ->
            Forall (always leaves_inputs) before ->
            Forall (always leaves_inputs) after ->
            Forall (always leaves_inputs)
              (inflight (schedule new_url c before after m)) /\
            jdUrl (cells (schedule new_url c before after m)) = jdUrl (cells c) /\
            greyHat (cells (schedule new_url c before after m))
              = greyHat (cells c)).
  { intros before after m Hm Hb Ha. rewrite schedule_unfold. simpl.
    destruct (always_advance new_url leaves_inputs m Hm) as [Ht Hm'].
    split; [|exact (inputs_apply_effects _ (cells c) Ht)].
    apply Forall_app. split; [exact Hb|]. apply Forall_app. split; [|exact Ha].
    destruct (is_suspended (snd (advance new_url m)));
      [constructor; [exact Hm' | constructor] | constructor]. }
  assert (Hsame :
    match ev with InputChange v => v | _ => jdUrl (cells c) end = jdUrl (cells c)
    /\ match ev with
       | CheckboxChange => negb (greyHat (cells c))
       | _ => greyHat (cells c)
       end = greyHat (cells c)).
  { destruct ev; try discriminate; auto. }
  destruct Hsame as [-> ->].
  destruct (step_cases API_BASE new_url c ev Hedit)
    as [-> | [(_ & _ & ->) | (i & m0 & m & Hn & Hq & ->)]].
  - auto.
  - apply Hsched; [apply generate_leaves_inputs | exact Hfl | constructor].
  - apply Hsched.
    + apply Hq. apply always_resumes. exact (Forall_nth_error _ _ _ _ Hfl Hn).
    + apply Forall_firstn_of. exact Hfl.
    + apply Forall_skipn_of. exact Hfl.
Qed.

Lemma inputs_run (evs : list event) (c : Component) :
  Forall (always leaves_inputs) (inflight c) ->
  jdUrl (cells (run API_BASE new_url c evs)) = last_input evs (jdUrl (cells c)) /\
  greyHat (cells (run API_BASE new_url c evs)) = toggled evs (greyHat (cells c)).
Proof.
  revert c. induction evs as [|ev evs IH]; intros c Hfl; [auto|].
  rewrite run_cons.
  destruct (inputs_step c ev Hfl) as (Hfl' & Hu & Hg).
  destruct (IH _ Hfl') as [-> ->]. rewrite Hu, Hg.
  unfold last_input, toggled. simpl. split; reflexivity.
Qed.

End Inputs.

(** Whatever happens to a mounted component, the input shows what the user
    typed last and the checkbox shows the start value negated once per
    change: no run of [generate], however it ends and whenever it is
    resumed, writes to either. *)
Theorem inputs_follow_the_user
  (API_BASE : option jsstring) (new_url : Blob -> jsstring)
  (evs : list event) :
  let v := ResumeGenerator (cells (run API_BASE new_url mount evs)) in
  input_value v = last_input evs [] /\
  checkbox_checked v = toggled evs true.
Proof.
  cbv zeta. simpl.
  exact (inputs_run API_BASE new_url evs mount (Forall_nil _)).
Qed.

(* ===================================================================== *)
(** ** One generation after another *)
(* ===================================================================== *)

Section Cycles.

Variable API_BASE : option jsstring.
Variable new_url : Blob -> jsstring.

(** A complete run leaves the input cells alone, and [loading] reset if
    it was. *)
Lemma cells_after_run (w : World) (u : jsstring) (g : bool) (s : State) :
  loading s = false ->
  let s' := apply_effects s (trace w (generate API_BASE u g)) in
  loading s' = false /\ jdUrl s' = jdUrl s /\ greyHat s' = greyHat s.
Proof.
  intros Hl. cbv zeta. destruct (truthy (trim u)) eqn:Ht.
  - rewrite (trace_accepted API_BASE w u g Ht).
    destruct (fetch_outcome w (generate_request API_BASE u g)) as [res|e];
      simpl; [|auto].
    destruct (ok res); simpl; [|auto].
    destruct (body_read res); simpl; auto.
  - rewrite (trace_rejected API_BASE w u g Ht). simpl. auto.
Qed.

Lemma cycles_run (os : list (Settled Response)) (c : Component) :
  loading (cells c) = false ->
  inflight c = [] ->
  let c' := run API_BASE new_url c (flat_map cycle os) in
  log c' = log c ++
           flat_map (fun o => trace (world_of new_url o)
                                (generate API_BASE (jdUrl (cells c))
                                   (greyHat (cells c)))) os /\
  inflight c' = [] /\
  loading (cells c') = false /\
  jdUrl (cells c') = jdUrl (cells c) /\
  greyHat (cells c') = greyHat (cells c).
Proof.
  revert c. induction os as [|o os IH]; intros c Hl Hn; cbv zeta.
  - simpl. rewrite app_nil_r. auto.
  - change (flat_map cycle (o :: os)) with (cycle o ++ flat_map cycle os).
    rewrite run_app.
    destruct (run_click_is_trace API_BASE new_url c o Hl Hn)
      as (Hlog & Hcells & Hfl).
    fold (cycle o) in Hlog, Hcells, Hfl. fold (world_of new_url o) in Hlog, Hcells.
    destruct (cells_after_run (world_of new_url o) (jdUrl (cells c))
                (greyHat (cells c)) (cells c) Hl) as (Hl' & Hu & Hg).
    rewrite <- Hcells in Hl', Hu, Hg.
    destruct (IH _ Hl' Hfl) as (IHlog & IHfl & IHl & IHu & IHg).
    rewrite IHlog, IHfl, IHl, IHu, IHg, Hlog, Hu, Hg.
    rewrite <- app_assoc. auto.
Qed.

Lemma fetches_flat_map_traces (os : list (Settled Response))
  (u : jsstring) (g : bool) :
  fetches (flat_map (fun o => trace (world_of new_url o)
                                (generate API_BASE u g)) os) =
    if all_white_space u then []
    else repeat (generate_request API_BASE u g) (List.length os).
Proof.
  induction os as [|o os IH]; simpl.
  - destruct (all_white_space u); reflexivity.
  - rewrite fetches_app, IH, request_sent_iff_not_blank.
    destruct (all_white_space u); reflexivity.
Qed.

End Cycles.

(** Generations follow one another: from an idle component, clicking and
    letting the two promises settle, again and again, logs the complete
    runs of [generate] one after the other, each on the same URL and flag,
    and leaves the component idle; with a URL that is not blank that is
    one and the same request per round. *)
Theorem generations_compose
  (API_BASE : option jsstring) (new_url : Blob -> jsstring)
  (c : Component) (os : list (Settled Response))
  (Hidle : loading (cells c) = false)
  (Hnone : inflight c = []) :
  let u := jdUrl (cells c) in
  let g := greyHat (cells c) in
  let c' := run API_BASE new_url c (flat_map cycle os) in
  log c' = log c ++
           flat_map (fun o => trace (world_of new_url o) (generate API_BASE u g))
             os /\
  fetches (log c') =
    fetches (log c) ++
    (if all_white_space u then []
     else repeat (generate_request API_BASE u g) (List.length os)) /\
  inflight c' = [] /\
  button_disabled (ResumeGenerator (cells c')) = false /\
  jdUrl (cells c') = u /\
  greyHat (cells c') = g.
Proof.
  cbv zeta.
  destruct (cycles_run API_BASE new_url os c Hidle Hnone)
    as (Hlog & Hfl & Hl & Hu & Hg).
  split; [exact Hlog|]. split; [|auto].
  rewrite Hlog, fetches_app, fetches_flat_map_traces. reflexivity.
Qed.

Lemma generations_compose_witness :
  fetches (log (run sample_base (fun _ => lit "blob:1")
                  {| cells := {| jdUrl := sample_url; greyHat := false;
                                 loading := false; error := [] |};
                     inflight := []; log := [] |}
                  (flat_map cycle [Fulfilled ok_response;
                                   Rejected (Error (lit "Failed to fetch"));
                                   Fulfilled cut_response]))) =
    repeat (generate_request sample_base sample_url false) 3.
Proof.
  exact (proj1 (proj2
    (generations_compose sample_base (fun _ => lit "blob:1")
       {| cells := {| jdUrl := sample_url; greyHat := false;
                      loading := false; error := [] |};
          inflight := []; log := [] |}
       [Fulfilled ok_response; Rejected (Error (lit "Failed to fetch"));
        Fulfilled cut_response]
       eq_refl eq_refl))).
Defined.

(* ===================================================================== *)
(** ** Editing while a request is in flight *)
(* ===================================================================== *)

Section Edits.

Variable API_BASE : option jsstring.
Variable new_url : Blob -> jsstring.

(** Edits write the two input cells and nothing else. *)
Lemma run_edits (es : list event) (c : Component) :
  forallb is_edit es = true ->
  exists E,
    run API_BASE new_url c es =
      {| cells := {| jdUrl := last_input es (jdUrl (cells c));
                     greyHat := toggled es (greyHat (cells c));
                     loading := loading (cells c);
                     error := error (cells c) |};
         inflight := inflight c;
         log := log c ++ E |} /\
    fetches E = [] /\ downloads E = [].
Proof.
  revert c. induction es as [|ev es IH]; intros c Hes.
  - exists []. simpl. rewrite app_nil_r. destruct c as [[u g l e] fl lg]. auto.
  - simpl in Hes. apply andb_true_iff in Hes as [Hev Hes].
    rewrite run_cons. destruct ev; try discriminate.
    + rewrite step_input.
      match goal with
      | |- context [run _ _ ?c0 es] =>
          destruct (IH c0 Hes) as (E & -> & HfE & HdE)
      end.
      exists (SetJdUrl v :: E). simpl. rewrite <- app_assoc. auto.
    + rewrite step_checkbox.
      match goal with
      | |- context [run _ _ ?c0 es] =>
          destruct (IH c0 Hes) as (E & -> & HfE & HdE)
      end.
      exists (SetGreyHat (negb (greyHat (cells c))) :: E). simpl.
      rewrite <- app_assoc. auto.
Qed.

End Edits.



(* ===================================================================== *)
(** ** What the user sees when a generation starts *)
(* ===================================================================== *)

(** A click on the enabled button with a URL that is not blank shows at
    once the disabled button with the label of a generation under way and
    the loader, and takes away the toast of an earlier failure; the input
    and the checkbox stay as they are. *)
Theorem click_shows_generating
  (API_BASE : option jsstring) (new_url : Blob -> jsstring) (c : Component)
  (Hidle : loading (cells c) = false)
  (Hurl : truthy (trim (jdUrl (cells c))) = true) :
  ResumeGenerator (cells (step API_BASE new_url c ButtonClick)) =
    {| input_value := jdUrl (cells c);
       checkbox_checked := greyHat (cells c);
       button_disabled := true;
       button_label := lit "Generating" ++ [8230%N];
       loader_shown := true;
       toast := None |}.
Proof.
  unfold step. simpl. rewrite Hidle. rewrite schedule_unfold.
  destruct (advance_generate_accepted new_url API_BASE
              (jdUrl (cells c)) (greyHat (cells c)) Hurl) as (k & -> & _).
  reflexivity.
Qed.

Lemma click_shows_generating_witness :
  toast (ResumeGenerator
           (cells (step sample_base (fun _ => lit "blob:1")
                     {| cells := {| jdUrl := sample_url; greyHat := true;
                                    loading := false;
                                    error := lit "Failed to generate resume" |};
                        inflight := []; log := [] |}
                     ButtonClick))) = None.
Proof.
  exact (f_equal toast
    (click_shows_generating sample_base (fun _ => lit "blob:1")
       {| cells := {| jdUrl := sample_url; greyHat := true;
                      loading := false;
                      error := lit "Failed to generate resume" |};
          inflight := []; log := [] |}
       eq_refl eq_refl)).
Defined.

(** Typing into the input and changing the checkbox never take the toast
    away nor touch the button: after any number of edits the toast, the
    loader and the button are as before, and nothing has been sent. *)
Theorem edits_keep_toast
  (API_BASE : option jsstring) (new_url : Blob -> jsstring)
  (c : Component) (es : list event)
  (Hedits : forallb is_edit es = true) :
  let v := ResumeGenerator (cells c) in
  let v' := ResumeGenerator (cells (run API_BASE new_url c es)) in
  toast v' = toast v /\
  button_disabled v' = button_disabled v /\
  button_label v' = button_label v /\
  loader_shown v' = loader_shown v /\
  fetches (log (run API_BASE new_url c es)) = fetches (log c) /\
  inflight (run API_BASE new_url c es) = inflight c.
Proof.
  cbv zeta.
  destruct (run_edits API_BASE new_url es c Hedits) as (E & -> & HfE & _).
  simpl. rewrite fetches_app, HfE, app_nil_r. repeat split.
Qed.

Lemma edits_keep_toast_witness :
  toast (ResumeGenerator
           (cells (run sample_base (fun _ => lit "blob:1")
                     {| cells := {| jdUrl := []; greyHat := true;
                                    loading := false;
                                    error := lit "Failed to generate resume" |};
                        inflight := []; log := [] |}
                     [InputChange sample_url; CheckboxChange]))) =
    Some (lit "Failed to generate resume").
Proof.
  exact (proj1
    (edits_keep_toast sample_base (fun _ => lit "blob:1")
       {| cells := {| jdUrl := []; greyHat := true; loading := false;
                      error := lit "Failed to generate resume" |};
          inflight := []; log := [] |}
       [InputChange sample_url; CheckboxChange] eq_refl)).
Defined.
